(** * mongo-notify: the admission gate, the broadcaster and the diff engine

    A shallow embedding of [src/server.ts].  Every definition below is the
    translation of one function of that file, or of one primitive of the
    JavaScript / Node.js run time the file calls ([parseInt], [Buffer.from],
    [crypto.createHmac], [crypto.timingSafeEqual], [Object.keys], ...).

    Conventions.
    - A JavaScript string is the list of its UTF-16 code units, each an [N].
    - A [Buffer] is the list of its bytes, each an [N] below 256.
    - [Date.now()] is an explicit argument [now : Z] (milliseconds).
    - A call that can throw returns a [completion]. *)

From Stdlib Require Import ZArith NArith List String Ascii Lia.
From Stdlib Require Import Floats.SpecFloat.
From stdpp Require Import base option list gmap pretty.

Local Open Scope N_scope.

(** ** JavaScript strings and primitives *)

Module JS.

Abbreviation jsstring := (list N) (only parsing).

(** A string literal of the source, as code units. *)
Definition str (s : string) : jsstring :=
  map N_of_ascii (list_ascii_of_string s).

(** [!s] on a string: only the empty string is falsy. *)
Definition truthy (s : jsstring) : bool :=
  match s with [] => false | _ :: _ => true end.

(** [!x] on [string | null] / [string | undefined]. *)
Definition truthy_opt (o : option jsstring) : bool :=
  match o with None => false | Some s => truthy s end.

(** [a || b] where [a : string | undefined] and [b] is the fallback. *)
Definition or_else (a : option jsstring) (b : option jsstring)
  : option jsstring :=
  if truthy_opt a then a else b.

(** What a JavaScript operation yields: a value or a thrown error. *)
Inductive error : Type :=
| ERR_CRYPTO_TIMING_SAFE_EQUAL_LENGTH.

Inductive completion (A : Type) : Type :=
| Return (a : A)
| Throw (e : error).
Arguments Return {A} a.
Arguments Throw {A} e.

(** ECMAScript [StrWhiteSpaceChar]: WhiteSpace and LineTerminator. *)
Definition isStrWhiteSpaceChar (c : N) : bool :=
  (c =? 9) || (c =? 10) || (c =? 11) || (c =? 12) || (c =? 13)
  || (c =? 32) || (c =? 160) || (c =? 5760)
  || ((8192 <=? c) && (c <=? 8202))
  || (c =? 8232) || (c =? 8233) || (c =? 8239) || (c =? 8287)
  || (c =? 12288) || (c =? 65279).

Fixpoint trimStart (s : jsstring) : jsstring :=
  match s with
  | c :: rest => if isStrWhiteSpaceChar c then trimStart rest else s
  | [] => []
  end.

Definition isDigit (c : N) : bool := (48 <=? c) && (c <=? 57).

(** The longest prefix of decimal digits, as digit values. *)
Fixpoint digitPrefix (s : jsstring) : list N :=
  match s with
  | c :: rest => if isDigit c then (c - 48) :: digitPrefix rest else []
  | [] => []
  end.

Definition digitsValue (ds : list N) : N :=
  fold_left (fun acc d => 10 * acc + d) ds 0.

(** [parseInt(s, 10)].  [None] is [NaN].  The mathematical value is kept
    exact; see [validateToken] for why that agrees with the IEEE double the
    run time returns. *)
Definition parseInt10 (s : jsstring) : option Z :=
  let t := trimStart s in
  let '(neg, body) :=
    match t with
    | 45 :: rest => (true, rest)
    | 43 :: rest => (false, rest)
    | _ => (false, t)
    end in
  match digitPrefix body with
  | [] => None
  | ds => let v := Z.of_N (digitsValue ds) in
          Some (if neg then (- v)%Z else v)
  end.

(** [Buffer.from(s)]: the UTF-8 encoding; an unpaired surrogate becomes
    U+FFFD. *)
Definition isHighSurrogate (c : N) : bool := (55296 <=? c) && (c <=? 56319).
Definition isLowSurrogate (c : N) : bool := (56320 <=? c) && (c <=? 57343).

Definition utf8_2 (c : N) : list N :=
  [N.lor 192 (N.shiftr c 6); N.lor 128 (N.land c 63)].
Definition utf8_3 (c : N) : list N :=
  [N.lor 224 (N.shiftr c 12); N.lor 128 (N.land (N.shiftr c 6) 63);
   N.lor 128 (N.land c 63)].
Definition utf8_4 (c : N) : list N :=
  [N.lor 240 (N.shiftr c 18); N.lor 128 (N.land (N.shiftr c 12) 63);
   N.lor 128 (N.land (N.shiftr c 6) 63); N.lor 128 (N.land c 63)].
Definition replacement : list N := [239; 191; 189].

Fixpoint Buffer_from (s : jsstring) : list N :=
  match s with
  | [] => []
  | c :: rest =>
      if c <? 128 then c :: Buffer_from rest
      else if c <? 2048 then utf8_2 c ++ Buffer_from rest
      else if isHighSurrogate c then
        match rest with
        | d :: rest' =>
            if isLowSurrogate d
            then utf8_4 (65536 + N.shiftl (c - 55296) 10 + (d - 56320))
                   ++ Buffer_from rest'
            else replacement ++ Buffer_from rest
        | [] => replacement
        end
      else if isLowSurrogate c then replacement ++ Buffer_from rest
      else utf8_3 c ++ Buffer_from rest
  end.

(** Number-to-string of a non-negative integer (template literals). *)
Definition Number_toString (n : N) : jsstring := str (pretty n).

End JS.

(** ** The [crypto] module: SHA-256, HMAC and the timing-safe comparison *)

Module Crypto.
Import JS.

Definition w32 (x : N) : N := x mod 4294967296.
Definition add32 (x y : N) : N := w32 (x + y).
Definition rotr (n x : N) : N :=
  N.lor (N.shiftr x n) (w32 (N.shiftl x (32 - n))).
Definition not32 (x : N) : N := 4294967295 - x.

Definition Ch (x y z : N) : N :=
  N.lxor (N.land x y) (N.land (not32 x) z).
Definition Maj (x y z : N) : N :=
  N.lxor (N.lxor (N.land x y) (N.land x z)) (N.land y z).
Definition bsig0 (x : N) : N :=
  N.lxor (N.lxor (rotr 2 x) (rotr 13 x)) (rotr 22 x).
Definition bsig1 (x : N) : N :=
  N.lxor (N.lxor (rotr 6 x) (rotr 11 x)) (rotr 25 x).
Definition ssig0 (x : N) : N :=
  N.lxor (N.lxor (rotr 7 x) (rotr 18 x)) (N.shiftr x 3).
Definition ssig1 (x : N) : N :=
  N.lxor (N.lxor (rotr 17 x) (rotr 19 x)) (N.shiftr x 10).

(** The round constants and the initial hash value are defined as FIPS
    180-4 defines them: the first 32 bits of the fractional parts of the
    cube roots of the first 64 primes, and of the square roots of the first
    8 primes. *)
Definition is_prime (n : N) : bool :=
  (2 <=? n)
  && forallb (fun d => negb (n mod d =? 0))
             (map N.of_nat (seq 2 (N.to_nat n - 2))).

Definition primes64 : list N :=
  List.filter is_prime (map N.of_nat (seq 2 310)).

(** The integer cube root of [x], found bit by bit from the top. *)
Fixpoint icbrt (bits : nat) (x r : N) : N :=
  match bits with
  | O => r
  | S b =>
      let c := r + N.shiftl 1 (N.of_nat b) in
      icbrt b x (if c * c * c <=? x then c else r)
  end.

Definition frac_cbrt32 (p : N) : N := w32 (icbrt 36 (N.shiftl p 96) 0).
Definition frac_sqrt32 (p : N) : N := w32 (N.sqrt (N.shiftl p 64)).

Definition K256 : list N := map frac_cbrt32 primes64.

Record hstate : Type := HState {
  ha : N; hb : N; hc : N; hd : N; he : N; hf : N; hg : N; hh : N }.

Definition H0 : hstate :=
  HState (frac_sqrt32 2) (frac_sqrt32 3) (frac_sqrt32 5) (frac_sqrt32 7)
         (frac_sqrt32 11) (frac_sqrt32 13) (frac_sqrt32 17) (frac_sqrt32 19).

(** The message schedule; [w] holds the words computed so far, most
    recent first. *)
Fixpoint schedule (n : nat) (w : list N) : list N :=
  match n with
  | O => rev w
  | S n' =>
      let x := add32 (add32 (ssig1 (nth 1 w 0)) (nth 6 w 0))
                     (add32 (ssig0 (nth 14 w 0)) (nth 15 w 0)) in
      schedule n' (x :: w)
  end.

Definition round (s : hstate) (kw : N * N) : hstate :=
  let t1 := add32 (add32 (add32 (hh s) (bsig1 (he s)))
                         (add32 (Ch (he s) (hf s) (hg s)) (fst kw)))
                  (snd kw) in
  let t2 := add32 (bsig0 (ha s)) (Maj (ha s) (hb s) (hc s)) in
  HState (add32 t1 t2) (ha s) (hb s) (hc s)
         (add32 (hd s) t1) (he s) (hf s) (hg s).

Definition be32 (b : list N) : N :=
  fold_left (fun acc x => 256 * acc + x) b 0.

Fixpoint words (n : nat) (b : list N) : list N :=
  match n with
  | O => []
  | S n' => be32 (take 4 b) :: words n' (drop 4 b)
  end.

Definition compress (s : hstate) (block : list N) : hstate :=
  let w := schedule 48 (rev (words 16 block)) in
  let r := fold_left round (combine K256 w) s in
  HState (add32 (ha s) (ha r)) (add32 (hb s) (hb r))
         (add32 (hc s) (hc r)) (add32 (hd s) (hd r))
         (add32 (he s) (he r)) (add32 (hf s) (hf r))
         (add32 (hg s) (hg r)) (add32 (hh s) (hh r)).

Definition be_bytes (k : nat) (x : N) : list N :=
  map (fun i => N.shiftr x (8 * N.of_nat i) mod 256) (rev (seq 0 k)).

(** Padding to a multiple of 64 bytes: 0x80, zeros, 64-bit bit length. *)
Definition pad (msg : list N) : list N :=
  let l := N.of_nat (length msg) in
  let z := N.to_nat ((119 - l mod 64) mod 64) in
  msg ++ 128 :: repeat 0 z ++ be_bytes 8 (8 * l).

Fixpoint blocks (n : nat) (s : hstate) (b : list N) : hstate :=
  match n with
  | O => s
  | S n' => blocks n' (compress s (take 64 b)) (drop 64 b)
  end.

Definition word_bytes (x : N) : list N :=
  [N.shiftr x 24 mod 256; N.shiftr x 16 mod 256;
   N.shiftr x 8 mod 256; x mod 256].

Definition digest_bytes (s : hstate) : list N :=
  word_bytes (ha s) ++ word_bytes (hb s) ++ word_bytes (hc s)
  ++ word_bytes (hd s) ++ word_bytes (he s) ++ word_bytes (hf s)
  ++ word_bytes (hg s) ++ word_bytes (hh s).

Definition sha256_state (msg : list N) : hstate :=
  let p := pad msg in
  blocks (length p / 64)%nat H0 p.

Definition sha256 (msg : list N) : list N :=
  digest_bytes (sha256_state msg).

(** HMAC (RFC 2104) with SHA-256, block size 64. *)
Definition hmac_key (key : list N) : list N :=
  let k := if (64 <? length key)%nat then sha256 key else key in
  k ++ repeat 0 (64 - length k)%nat.

Definition hmac_sha256_state (key msg : list N) : hstate :=
  let k := hmac_key key in
  sha256_state (map (N.lxor 0x5c) k ++ sha256 (map (N.lxor 0x36) k ++ msg)).

(** [.digest('hex')]: two lowercase hexadecimal digits per byte. *)
Definition hexdigit (d : N) : N := if d <? 10 then 48 + d else 87 + d.
Definition hex_byte (b : N) : jsstring := [hexdigit (b / 16); hexdigit (b mod 16)].
Definition hex (b : list N) : jsstring := concat (map hex_byte b).

(** [crypto.createHmac('sha256', key).update(msg).digest('hex')], with a
    string key and a string message (both taken as UTF-8). *)
Definition createHmac_sha256_hex (key msg : jsstring) : jsstring :=
  hex (digest_bytes (hmac_sha256_state (Buffer_from key) (Buffer_from msg))).

(** [crypto.timingSafeEqual(a, b)]: a [RangeError] when the byte lengths
    differ, otherwise whether the buffers hold the same bytes. *)
Definition timingSafeEqual (a b : list N) : completion bool :=
  if negb (length a =? length b)%nat
  then Throw ERR_CRYPTO_TIMING_SAFE_EQUAL_LENGTH
  else Return (bool_decide (a = b)).

End Crypto.

Import JS Crypto.

(** ** The server: [src/server.ts] *)

Module Server.

(** *** Start-up guard (lines 9-16) *)

Inductive startup_error : Type :=
| MONGODB_URI_is_not_set
| TOKEN_is_not_set.

(** The module throws while loading when [MONGODB_URI] or [TOKEN] is unset
    or empty; [None] is "nothing thrown". *)
Definition startup_check (MONGODB_URI TOKEN : option jsstring)
    : option startup_error :=
  if negb (truthy_opt MONGODB_URI) then Some MONGODB_URI_is_not_set
  else if negb (truthy_opt TOKEN) then Some TOKEN_is_not_set
  else None.

(** *** Token authenticator (lines 28-48) *)

(** [validateToken(token, timestamp)].  [TOKEN] is [process.env.TOKEN];
    [now] is what [Date.now()] returns inside the call.

    [timestampNum] is kept as the exact integer.  The run time holds the
    nearest double instead; the two agree on the test
    [Math.abs(now - timestampNum) > 5 * 60 * 1000] for every [now] a
    [Date] can hold (below 8.64e15), because an integer within 300000 of
    such a [now] is below 2^53 and so is represented exactly. *)
Definition validateToken (TOKEN : option jsstring) (now : Z)
    (token timestamp : option jsstring) : completion bool :=
  match token, timestamp, TOKEN with
  | Some token, Some timestamp, Some secret =>
      if negb (truthy token) || negb (truthy timestamp)
         || negb (truthy secret)
      then Return false
      else
        match parseInt10 timestamp with
        | None => Return false
        | Some timestampNum =>
            if (Z.abs (now - timestampNum) >? 5 * 60 * 1000)%Z
            then Return false
            else
              let expectedToken := createHmac_sha256_hex secret timestamp in
              timingSafeEqual (Buffer_from token)
                              (Buffer_from expectedToken)
        end
  | _, _, _ => Return false
  end.

(** *** Rate limiter (lines 23-26, 50-65) *)

Record RateRecord : Type := { count : Z; resetTime : Z }.

Definition RATE_LIMIT_WINDOW : Z := 60 * 1000.
Definition MAX_CONNECTIONS_PER_IP : Z := 5.

(** [checkRateLimit(ip)], with the [ipConnections] map passed in and out.
    [connectionInfo.count++] updates the record the map holds. *)
Definition checkRateLimit (now : Z) (ip : jsstring)
    (ipConnections : gmap jsstring RateRecord)
    : bool * gmap jsstring RateRecord :=
  let fresh := {| count := 1; resetTime := now + RATE_LIMIT_WINDOW |} in
  match ipConnections !! ip with
  | None => (true, <[ip := fresh]> ipConnections)
  | Some connectionInfo =>
      if (now >? resetTime connectionInfo)%Z
      then (true, <[ip := fresh]> ipConnections)
      else if (count connectionInfo >=? MAX_CONNECTIONS_PER_IP)%Z
      then (false, ipConnections)
      else (true, <[ip := {| count := count connectionInfo + 1;
                             resetTime := resetTime connectionInfo |}]>
                    ipConnections)
  end.

(** A run of the limiter over a sequence of attempts [(now, ip)]. *)
Fixpoint attempts (calls : list (Z * jsstring))
    (m : gmap jsstring RateRecord)
    : list bool * gmap jsstring RateRecord :=
  match calls with
  | [] => ([], m)
  | (now, ip) :: rest =>
      let '(ok, m') := checkRateLimit now ip m in
      let '(oks, m'') := attempts rest m' in
      (ok :: oks, m'')
  end.

(** *** Values: what [JSON.parse] yields, and the engine's own objects *)

(** A number is an IEEE-754 double; [===] on numbers is [SFeqb]. *)
Abbreviation number := spec_float (only parsing).

(** Objects and arrays list their own enumerable properties in
    [Object.keys] order.  [VFunction] and [VPrototype] are the built-in
    function objects and prototype objects of the engine, told apart by
    their names ([Object.prototype.toString], [Array.prototype]):
    [JSON.parse] yields none of them, but [obj[key]] does, for a key such
    as ["toString"] or ["__proto__"]. *)
#[local] Unset Elimination Schemes.
Inductive value : Type :=
| VNull
| VBool (b : bool)
| VNumber (x : number)
| VString (s : jsstring)
| VArray (elems : list value)
| VObject (props : list (jsstring * value))
| VFunction (name : jsstring)
| VPrototype (name : jsstring).
#[local] Set Elimination Schemes.

(** *** The engine *)

(** What the code relies on the engine for, besides the meaning of its own
    text.
    - [builtin v key] is [v[key]] for a key that is not an own enumerable
      property of [v]: an own property that is not enumerable (["length"]
      of an array or a string) or one found on the prototype chain
      (["toString"], ["constructor"], ["__proto__"]); [None] is
      [undefined].
    - [stack] is the number of nested calls of [generateDiff] that the call
      stack holds below the one the request listener makes; one call more
      throws [RangeError: Maximum call stack size exceeded].
    - [spread_limit n] is the number of arguments a spread call
      [f(...args)] can pass where the stack has room for [n] more calls of
      [generateDiff]: the arguments go through the call stack, and one
      more throws the same [RangeError]. *)
Record engine : Type := Engine {
  builtin : value → jsstring → option value;
  stack : nat;
  spread_limit : nat → nat }.

(** *** Sets with insertion order ([Set<T>]) *)

Section JSSet.
Context {A : Type} `{EqDecision A}.

Definition Set_add (s : list A) (x : A) : list A :=
  if bool_decide (x ∈ s) then s else s ++ [x].
Definition Set_delete (s : list A) (x : A) : list A :=
  filter (λ y, y ≠ x) s.
Definition Set_new (l : list A) : list A := foldl Set_add [] l.
End JSSet.

(** *** Connection registry and broadcaster (lines 21, 67-74) *)

Inductive ReadyState : Type := CONNECTING | OPEN | CLOSING | CLOSED.

Abbreviation sock := nat (only parsing).

(** What the process does to the outside: a call of [JSON.stringify] and
    a call of [ws.send]. *)
Inductive event : Type :=
| Stringify (data : value)
| Send (ws : sock) (payload : jsstring).

Record world : Type := World {
  activeSockets : list sock;
  ipConnections : gmap jsstring RateRecord;
  readyState : sock → ReadyState;
  trace : list event }.

Definition M (A : Type) : Type := world → A * world.

#[export] Instance M_ret : MRet M := λ A a w, (a, w).
#[export] Instance M_bind : MBind M :=
  λ A B f c w, let '(a, w') := c w in f a w'.

Definition emit (e : event) : M unit :=
  λ w, (tt, World (activeSockets w) (ipConnections w) (readyState w)
                  (trace w ++ [e])).

Definition get_activeSockets : M (list sock) := λ w, (activeSockets w, w).
Definition ws_readyState (ws : sock) : M ReadyState :=
  λ w, (readyState w ws, w).
Definition ws_send (ws : sock) (payload : jsstring) : M unit :=
  emit (Send ws payload).

Definition ReadyState_eqb (a b : ReadyState) : bool :=
  match a, b with
  | CONNECTING, CONNECTING | OPEN, OPEN
  | CLOSING, CLOSING | CLOSED, CLOSED => true
  | _, _ => false
  end.

(** [for (const x of l) body(x)] *)
Fixpoint for_of {A : Type} (l : list A) (body : A → M unit) : M unit :=
  match l with
  | [] => mret tt
  | x :: rest => _ ← body x; for_of rest body
  end.

Section Broadcast.
  (** [JSON.stringify] on a JSON-like value: some string. *)
Variable JSON_stringify : value → jsstring.

Definition JSON_stringify_call (data : value) : M jsstring :=
    _ ← emit (Stringify data); mret (JSON_stringify data).

  (** [broadcast(data)].  [ws.send] does not touch [activeSockets], so
      the loop runs over the set as it is when the loop starts. *)
Definition broadcast (data : value) : M unit :=
    payload ← JSON_stringify_call data;
    sockets ← get_activeSockets;
    for_of sockets (λ ws,
      state ← ws_readyState ws;
      if ReadyState_eqb state OPEN then ws_send ws payload else mret tt).
End Broadcast.

(** *** Diff engine (lines 76-141) *)

Inductive DiffEntry : Type :=
| added (path : jsstring) (value_ : value)
| removed (path : jsstring) (value_ : value)
| changed (path : jsstring) (from to : value).

(** The own enumerable properties of a value, in [Object.keys] order.  An
    array (and a string primitive) is an object keyed by its indices; a
    built-in function or prototype has none. *)
Definition index_keys (n : nat) : list jsstring :=
  map (λ i, Number_toString (N.of_nat i)) (seq 0 n).

Definition own_props (v : value) : list (jsstring * value) :=
  match v with
  | VString s => zip (index_keys (length s)) (map (λ c, VString [c]) s)
  | VArray elems => zip (index_keys (length elems)) elems
  | VObject props => props
  | VNull | VBool _ | VNumber _ | VFunction _ | VPrototype _ => []
  end.

Definition Object_keys (v : value) : list jsstring :=
  map fst (own_props v).

(** [!v]: the falsy values are [null], [false], [0], [-0], [NaN], [""]. *)
Definition falsy (v : value) : bool :=
  match v with
  | VNull => true
  | VBool b => negb b
  | VNumber (S754_zero _) | VNumber S754_nan => true
  | VNumber _ => false
  | VString s => negb (truthy s)
  | VArray _ | VObject _ | VFunction _ | VPrototype _ => false
  end.

(** [Object.keys(obj || {})]; [None] is [undefined]. *)
Definition keys_or_empty (obj : option value) : list jsstring :=
  match obj with
  | None => []
  | Some v => if falsy v then [] else Object_keys v
  end.

Fixpoint lookup_prop (key : jsstring) (props : list (jsstring * value))
    : option value :=
  match props with
  | [] => None
  | (k, v) :: rest =>
      if bool_decide (k = key) then Some v else lookup_prop key rest
  end.

(** [obj?.[key]]; [None] is [undefined].  The own enumerable properties
    come first (a JSON object that owns ["toString"] or ["__proto__"]
    shadows the inherited one); for any other key the engine answers. *)
Definition get (E : engine) (obj : option value) (key : jsstring)
    : option value :=
  match obj with
  | None | Some VNull => None
  | Some v =>
      match lookup_prop key (own_props v) with
      | Some u => Some u
      | None => builtin E v key
      end
  end.

(** [v !== null && typeof v === 'object']: a function is not (its [typeof]
    is ['function']), a prototype object is. *)
Definition is_object (v : option value) : bool :=
  match v with
  | Some (VArray _) | Some (VObject _) | Some (VPrototype _) => true
  | _ => false
  end.

(** [a === b].  Two objects are equal when they are the same object: the
    built-in ones are the same when they have the same name; for arrays
    and plain objects [generateDiff] compares with [!==] only when at most
    one side is an object, and an object is never [===] to a primitive. *)
Definition strict_equal (a b : option value) : bool :=
  match a, b with
  | None, None => true
  | Some VNull, Some VNull => true
  | Some (VBool x), Some (VBool y) => bool_decide (x = y)
  | Some (VNumber x), Some (VNumber y) => SFeqb x y
  | Some (VString s), Some (VString t) => bool_decide (s = t)
  | Some (VFunction f), Some (VFunction g) => bool_decide (f = g)
  | Some (VPrototype p), Some (VPrototype q) => bool_decide (p = q)
  | _, _ => false
  end.

(** [changes.push(...sub)] where the stack has room for [frames] more calls
    of [generateDiff]: the entries of [sub] are passed as arguments, and
    the call throws a [RangeError] when they are more than the stack
    takes. *)
Definition spread (E : engine) (frames : nat) (sub : list DiffEntry)
    : option (list DiffEntry) :=
  if bool_decide (length sub ≤ spread_limit E frames)%nat then Some sub
  else None.

(** [generateDiff(obj1, obj2, path)], with room for [fuel] nested calls on
    the call stack; [None] is a thrown [RangeError] (the stack is
    exhausted, by the recursion or by a spread call), which nothing in
    [generateDiff] catches. *)
Fixpoint generateDiff_fuel (E : engine) (fuel : nat)
    (obj1 obj2 : option value) (path : jsstring)
    : option (list DiffEntry) :=
  match fuel with
  | O => None
  | S fuel' =>
      let keys := Set_new (keys_or_empty obj1 ++ keys_or_empty obj2) in
      foldl (λ acc key,
        match acc with
        | None => None
        | Some changes =>
            let fullPath :=
              if truthy path then path ++ str "." ++ key else key in
            let val1 := get E obj1 key in
            let val2 := get E obj2 key in
            if is_object val1 && is_object val2 then
              match generateDiff_fuel E fuel' val1 val2 fullPath
                    ≫= spread E fuel' with
              | None => None
              | Some sub => Some (changes ++ sub)
              end
            else if negb (strict_equal val1 val2) then
              match val1, val2 with
              | None, Some v2 => Some (changes ++ [added fullPath v2])
              | Some v1, None => Some (changes ++ [removed fullPath v1])
              | Some v1, Some v2 => Some (changes ++ [changed fullPath v1 v2])
              | None, None => Some changes
              end
            else Some changes
        end) (Some []) keys
  end.

(** The call the request listener makes: the call itself fits, and
    [stack E] nested ones below it. *)
Definition generateDiff (E : engine) (obj1 obj2 : option value)
    (path : jsstring) : option (list DiffEntry) :=
  generateDiff_fuel E (S (stack E)) obj1 obj2 path.

(** Nesting depth of a value: the number of objects (arrays, plain
    objects, a prototype) one inside the other. *)
Fixpoint depth (v : value) : nat :=
  match v with
  | VArray elems => S (foldr (λ x n, Nat.max (depth x) n) 0%nat elems)
  | VObject props => S (foldr (λ p n, Nat.max (depth (snd p)) n) 0%nat props)
  | VPrototype _ => 1%nat
  | _ => 0%nat
  end.

Definition depth_opt (o : option value) : nat :=
  match o with None => 0%nat | Some v => depth v end.

(** [l.join(sep)] *)
Fixpoint join (sep : jsstring) (l : list jsstring) : jsstring :=
  match l with
  | [] => []
  | [x] => x
  | x :: rest => x ++ sep ++ join sep rest
  end.

Record Stats : Type := { stats_added : N; stats_removed : N; stats_changed : N }.

(** [stats[change.type] += 1] *)
Definition stats_bump (stats : Stats) (change : DiffEntry) : Stats :=
  match change with
  | added _ _ =>
      {| stats_added := stats_added stats + 1;
         stats_removed := stats_removed stats;
         stats_changed := stats_changed stats |}
  | removed _ _ =>
      {| stats_added := stats_added stats;
         stats_removed := stats_removed stats + 1;
         stats_changed := stats_changed stats |}
  | changed _ _ _ =>
      {| stats_added := stats_added stats;
         stats_removed := stats_removed stats;
         stats_changed := stats_changed stats + 1 |}
  end.

Section FormatDiff.
(** The three conversions the renderers ask of the engine, each of which
    can throw ([None]):
    - [JSON_stringify v] is [`${JSON.stringify(v)}`]; it throws a
      [RangeError] on a value nested deeper than the stack takes;
    - [String_of v] is [`${v}`], the [ToString] of a template literal; it
      throws a [TypeError] on an object that has no callable [toString]
      or [valueOf] (one that owns a ["toString"] that is a number, say),
      and a [RangeError] on an array nested too deep;
    - [JSON_stringify_diff diff] is [JSON.stringify({ diff }, null, 2)]. *)
Variable JSON_stringify : value → option jsstring.
Variable String_of : value → option jsstring.
Variable JSON_stringify_diff : list DiffEntry → option jsstring.

Definition git_line (change : DiffEntry) : option jsstring :=
  match change with
  | added path v =>
      s ← JSON_stringify v; Some (str "+ " ++ path ++ str ": " ++ s)
  | removed path v =>
      s ← JSON_stringify v; Some (str "- " ++ path ++ str ": " ++ s)
  | changed path from to =>
      s ← JSON_stringify from; t ← JSON_stringify to;
      Some (str "~ " ++ path ++ str ": " ++ s ++ str " -> " ++ t)
  end.

Definition plain_line (change : DiffEntry) : option jsstring :=
  match change with
  | added path v =>
      s ← String_of v; Some (str "Added " ++ path ++ str " = " ++ s)
  | removed path v =>
      s ← String_of v;
      Some (str "Removed " ++ path ++ str " (was " ++ s ++ str ")")
  | changed path from to =>
      s ← String_of from; t ← String_of to;
      Some (str "Changed " ++ path ++ str " from " ++ s ++ str " to " ++ t)
  end.

Definition compact_line (change : DiffEntry) : jsstring :=
  match change with
  | added path _ => str "+" ++ path
  | removed path _ => str "-" ++ path
  | changed path _ _ => str "~" ++ path
  end.

(** [formatDiff(diff, type)]; [None] is a thrown error, which nothing in
    [formatDiff] catches. *)
Definition formatDiff (diff : list DiffEntry) (type : jsstring)
    : option jsstring :=
  if bool_decide (type = str "git")
  then join [10] <$> mapM git_line diff
  else if bool_decide (type = str "plain")
  then join [10] <$> mapM plain_line diff
  else if bool_decide (type = str "compact")
  then Some (join [10] (map compact_line diff))
  else if bool_decide (type = str "summary") then
    let stats :=
      foldl stats_bump
        {| stats_added := 0; stats_removed := 0; stats_changed := 0 |} diff in
    Some (str "Added: " ++ Number_toString (stats_added stats)
          ++ str ", Removed: " ++ Number_toString (stats_removed stats)
          ++ str ", Changed: " ++ Number_toString (stats_changed stats))
  else JSON_stringify_diff diff.
End FormatDiff.

(** *** Upgrade gatekeeper (lines 188-230) *)

(** A query parameter is a string, or an array when it is repeated. *)
Inductive qvalue : Type :=
| QString (s : jsstring)
| QArray (l : list jsstring).

Definition qvalue_toString (q : qvalue) : jsstring :=
  match q with
  | QString s => s
  | QArray l => join (str ",") l
  end.

(** What the handler reads of the request: [parseUrl(req.url, true)],
    [req.headers] and [req.socket.remoteAddress]; and what
    [wss.handleUpgrade] makes of it: [handshake] tells whether that call
    completes the WebSocket handshake and calls back with a socket (it
    answers an error instead, and never calls back, when the method, the
    [Upgrade] header, the [Sec-WebSocket-Key] or the version is not what
    the protocol asks for). *)
Record request : Type := {
  pathname : option jsstring;
  query : gmap jsstring qvalue;
  headers : gmap jsstring jsstring;
  remoteAddress : option jsstring;
  handshake : bool }.

Definition ipHeaders : list jsstring :=
  [str "x-forwarded-for"; str "x-real-ip"; str "cf-connecting-ip";
   str "x-forwarded"; str "true-client-ip"; str "x-client-ip";
   str "x-cluster-client-ip"; str "fastly-client-ip";
   str "x-appengine-user-ip"].

(** [a || b] with a string literal [b]. *)
Definition or_string (a : option jsstring) (b : jsstring) : jsstring :=
  match a with
  | Some s => if truthy s then s else b
  | None => b
  end.

(** Line 206:
    [ipHeaders.find(header => req.headers[header]) || req.socket.remoteAddress || 'unknown'].
    [Array.prototype.find] returns the first ELEMENT of [ipHeaders] that
    passes the test. *)
Definition upgrade_ip (req : request) : jsstring :=
  or_string
    (or_else (find (λ header, truthy_opt (headers req !! header)) ipHeaders)
             (remoteAddress req))
    (str "unknown").

(** How a run of the listener ends: the socket destroyed (another path),
    a 429 or a 401 written to it, the upgrade done and the socket
    registered, the credential accepted but the handshake aborted by
    [wss.handleUpgrade] (which answers the error itself and does not call
    back), or an error that nothing catches. *)
Inductive outcome : Type :=
| Destroyed
| TooManyRequests
| Unauthorized
| Upgraded
| HandshakeAborted
| Uncaught (e : error).

Definition set_ipConnections (m : gmap jsstring RateRecord) (w : world)
    : world :=
  World (activeSockets w) m (readyState w) (trace w).

Definition activeSockets_add (ws : sock) (w : world) : world :=
  World (Set_add (activeSockets w) ws) (ipConnections w) (readyState w)
        (trace w).

Definition activeSockets_delete (ws : sock) (w : world) : world :=
  World (Set_delete (activeSockets w) ws) (ipConnections w) (readyState w)
        (trace w).

(** The ['upgrade'] listener.  [now1] and [now2] are the two readings of
    [Date.now()] (in [checkRateLimit], then in [validateToken]); [ws] is the
    socket [wss.handleUpgrade] hands to its callback when it completes the
    handshake; when it does not, the callback never runs and nothing is
    registered.  An error thrown inside the listener is not caught
    anywhere. *)
Definition onUpgrade (TOKEN : option jsstring) (now1 now2 : Z) (ws : sock)
    (req : request) : M outcome :=
  λ w,
    if negb (bool_decide (pathname req = Some (str "/ws")))
    then (Destroyed, w)
    else
      let ip := upgrade_ip req in
      let '(ok, m) := checkRateLimit now1 ip (ipConnections w) in
      let w := set_ipConnections m w in
      if negb ok then (TooManyRequests, w)
      else
        let token :=
          or_else (qvalue_toString <$> query req !! str "_internalToken")
                  None in
        let time :=
          or_else (qvalue_toString <$> query req !! str "time") None in
        match validateToken TOKEN now2 token time with
        | Throw e => (Uncaught e, w)
        | Return false => (Unauthorized, w)
        | Return true =>
            if handshake req then (Upgraded, activeSockets_add ws w)
            else (HandshakeAborted, w)
        end.

End Server.

Import Server.

(** Which of the three kinds an entry has ([change.type]), and how many
    entries of a kind a diff holds. *)
Inductive Kind : Type := KAdded | KRemoved | KChanged.

Definition entry_kind (change : DiffEntry) : Kind :=
  match change with
  | added _ _ => KAdded
  | removed _ _ => KRemoved
  | changed _ _ _ => KChanged
  end.

Definition Kind_eqb (a b : Kind) : bool :=
  match a, b with
  | KAdded, KAdded | KRemoved, KRemoved | KChanged, KChanged => true
  | _, _ => false
  end.

Definition count_kind (k : Kind) (diff : list DiffEntry) : N :=
  N.of_nat (length (List.filter (λ e, Kind_eqb (entry_kind e) k) diff)).

(** A value [JSON.parse] can yield: no number in it is [NaN]. *)
Fixpoint json_like (v : value) : bool :=
  match v with
  | VNumber S754_nan => false
  | VArray elems => forallb json_like elems
  | VObject props => forallb (λ p, json_like (snd p)) props
  | VFunction _ | VPrototype _ => false
  | _ => true
  end.

(** A lowercase hexadecimal digit: [0-9a-f]. *)
Definition is_lower_hex (c : N) : Prop :=
  48 ≤ c ≤ 57 ∨ 97 ≤ c ≤ 102.

(** The events a run added to the trace. *)
Definition sends_to (ws : sock) (tr : list event) : list jsstring :=
  omap (λ e, match e with
             | Send ws' p => if bool_decide (ws' = ws) then Some p else None
             | Stringify _ => None
             end) tr.

Definition stringify_count (tr : list event) : nat :=
  length (List.filter (λ e, match e with Stringify _ => true | _ => false end)
                      tr).

Definition emitted (w w' : world) : list event :=
  drop (length (trace w)) (trace w').

Definition is_open (w : world) (ws : sock) : bool :=
  ReadyState_eqb (readyState w ws) OPEN.

(** Sample inputs. *)
Definition sample_secret : jsstring := str "s3cret".
Definition sample_time : jsstring := str "1700000000000".
Definition sample_request : request :=
  {| pathname := Some (str "/ws");
     query := ∅;
     headers := {[ str "x-real-ip" := str "203.0.113.7" ]};
     remoteAddress := Some (str "10.0.0.1");
     handshake := true |}.
Definition short_token_request : request :=
  {| pathname := Some (str "/ws");
     query := {[ str "_internalToken" := QString (str "abc");
                 str "time" := QString sample_time ]};
     headers := ∅;
     remoteAddress := Some (str "10.0.0.1");
     handshake := true |}.
Definition empty_world : world :=
  World [] ∅ (λ _, OPEN) [].
Definition sample_world : world :=
  World [1; 2; 3]%nat ∅ (λ ws, if (ws =? 2)%nat then CLOSING else OPEN) [].
Definition sample_value : value :=
  VObject [(str "x", VObject [(str "y", VNumber (S754_zero false))]);
           (str "z", VArray [VString (str "s"); VNull; VBool true;
                             VNumber (S754_infinity false)])].

(** A sample engine: a cut of the built-ins of Node.  Every value but
    [null] has a prototype, reached under ["__proto__"]; arrays and
    strings have a ["length"]; the prototypes hold the methods, and
    [Object.prototype] ends every chain. *)
Definition number_of_nat (n : nat) : value :=
  VNumber (binary_normalize 53 1024 (Z.of_nat n) 0 false).

Definition Object_prototype : jsstring := str "Object.prototype".

Definition prototype_of (v : value) : option jsstring :=
  match v with
  | VNull => None
  | VBool _ => Some (str "Boolean.prototype")
  | VNumber _ => Some (str "Number.prototype")
  | VString _ => Some (str "String.prototype")
  | VArray _ => Some (str "Array.prototype")
  | VObject _ => Some Object_prototype
  | VFunction _ => Some (str "Function.prototype")
  | VPrototype p =>
      if bool_decide (p = Object_prototype) then None
      else Some Object_prototype
  end.

Definition methods (p : jsstring) : list jsstring :=
  if bool_decide (p = Object_prototype) then
    [str "constructor"; str "hasOwnProperty"; str "isPrototypeOf";
     str "propertyIsEnumerable"; str "toLocaleString"; str "toString";
     str "valueOf"]
  else if bool_decide (p = str "Array.prototype") then
    [str "constructor"; str "concat"; str "join"; str "pop"; str "push";
     str "toString"]
  else [str "constructor"; str "toString"; str "valueOf"].

(** The method [key] as found from the prototype [p] on. *)
Definition method_from (p key : jsstring) : option value :=
  if bool_decide (key ∈ methods p)
  then Some (VFunction (p ++ str "." ++ key))
  else if bool_decide (key ∈ methods Object_prototype)
  then Some (VFunction (Object_prototype ++ str "." ++ key))
  else None.

Definition node_builtin (v : value) (key : jsstring) : option value :=
  if bool_decide (key = str "__proto__") then
    match v, prototype_of v with
    | VFunction _, _ => Some (VFunction (str "Function.prototype"))
    | _, Some p => Some (VPrototype p)
    | VPrototype _, None => Some VNull
    | _, None => None
    end
  else
    match v with
    | VNull => None
    | VArray elems =>
        if bool_decide (key = str "length")
        then Some (number_of_nat (length elems))
        else method_from (str "Array.prototype") key
    | VString s =>
        if bool_decide (key = str "length")
        then Some (number_of_nat (length s))
        else method_from (str "String.prototype") key
    | VPrototype p => method_from p key
    | _ => from_option (λ p, method_from p key) None (prototype_of v)
    end.

(** Its call stack holds 3000 nested calls of [generateDiff], each taking
    the room of 40 spread arguments. *)
Definition node : engine :=
  {| builtin := node_builtin;
     stack := 3000;
     spread_limit := λ frames, (40 * frames)%nat |}.

(** [`${v}`] on the values of the examples: an object that owns a
    ["toString"] (which in a JSON-like value is never callable) has no way
    to a primitive. *)
Definition sample_String_of (v : value) : option jsstring :=
  match v with
  | VNull => Some (str "null")
  | VBool b => Some (if b then str "true" else str "false")
  | VString s => Some s
  | VObject props =>
      match lookup_prop (str "toString") props with
      | None => Some (str "[object Object]")
      | Some _ => None
      end
  | _ => Some []
  end.



(** ** The rest of the server *)

(** [{ type: 'db_change', data: change }] *)
Definition db_change (change : value) : value :=
  VObject [(str "type", VString (str "db_change")); (str "data", change)].

(** *** HTTP listener (lines 155-186) *)

Record http_request : Type := {
  method : jsstring;
  http_pathname : option jsstring;
  http_query : gmap jsstring qvalue;
  chunks : list jsstring }.

Record http_response : Type := {
  statusCode : N;
  contentType : option jsstring;
  responseBody : jsstring }.

(** [JSON.stringify({ error: 'Invalid input' })] *)
Definition invalid_input_body : jsstring :=
  str "{" ++ [34] ++ str "error" ++ [34] ++ str ":" ++ [34]
    ++ str "Invalid input" ++ [34] ++ str "}".

(** The [catch] branch. *)
Definition invalid_input : http_response :=
  {| statusCode := 400;
     contentType := Some (str "application/json");
     responseBody := invalid_input_body |}.

Section Http.
Variable E : engine.
(** [JSON.parse]: [None] is a thrown [SyntaxError]. *)
Variable JSON_parse : jsstring → option value.
Variable JSON_stringify : value → option jsstring.
Variable String_of : value → option jsstring.
Variable JSON_stringify_diff : list DiffEntry → option jsstring.

(** What the [try] block computes: the text to answer with, or [None]
    when one of its steps throws.  Destructuring [null] throws a
    [TypeError]; of any other value it reads the properties [old] and
    [new]. *)
Definition diff_output (req : http_request) : option jsstring :=
  let body := foldl (λ body chunk, body ++ chunk) [] (chunks req) in
  match JSON_parse body with
  | None | Some VNull => None
  | Some parsed =>
      let old := get E (Some parsed) (str "old") in
      let next := get E (Some parsed) (str "new") in
      let type :=
        or_string (qvalue_toString <$> http_query req !! str "type")
                  (str "json") in
      diff ← generateDiff E old next [];
      formatDiff JSON_stringify String_of JSON_stringify_diff diff type
  end.

(** The request listener, with the body chunks already received.  The
    [catch] answers whatever the [try] block throws. *)
Definition onRequest (req : http_request) : http_response :=
  if bool_decide (method req = str "POST")
     && bool_decide (http_pathname req = Some (str "/diff"))
  then
    match diff_output req with
    | Some output =>
        {| statusCode := 200;
           contentType := Some (str "text/plain");
           responseBody := output |}
    | None => invalid_input
    end
  else if bool_decide (http_pathname req = Some (str "/ws")) then
    {| statusCode := 426;
       contentType := Some (str "text/plain");
       responseBody := str "Use WebSocket" |}
  else
    {| statusCode := 404; contentType := None;
       responseBody := str "Not found" |}.
End Http.

(** *** Change-feed adapter (lines 147-150) *)

(** The ['change'] listener: [broadcast({ type: 'db_change', data: change })]. *)
Definition onChange (JSON_stringify : value → jsstring) (change : value)
    : M unit :=
  broadcast JSON_stringify (db_change change).

(** ** Notions used in the statements *)

(** The attempts of one address in a run, and their answers. *)
Definition calls_of (ip : jsstring) (calls : list (Z * jsstring))
    : list (Z * jsstring) :=
  List.filter (λ c, bool_decide (snd c = ip)) calls.

Definition results_of (ip : jsstring) (calls : list (Z * jsstring))
    (oks : list bool) : list bool :=
  map fst (List.filter (λ p, bool_decide (snd (snd p) = ip)) (zip oks calls)).

(** [path ? `${path}.${key}` : key] *)
Definition path_join (path key : jsstring) : jsstring :=
  if truthy path then path ++ str "." ++ key else key.

Definition entry_path (change : DiffEntry) : jsstring :=
  match change with
  | added path _ | removed path _ | changed path _ _ => path
  end.

(** The entries one key contributes (the body of the [for] loop of
    [generateDiff]), with [rec] for the recursive call. *)
Definition diff_key (E : engine)
    (rec : option value → option value → jsstring
           → option (list DiffEntry))
    (obj1 obj2 : option value) (path key : jsstring)
    : option (list DiffEntry) :=
  let fullPath := path_join path key in
  let val1 := get E obj1 key in
  let val2 := get E obj2 key in
  if is_object val1 && is_object val2 then rec val1 val2 fullPath
  else if negb (strict_equal val1 val2) then
    match val1, val2 with
    | None, Some v2 => Some [added fullPath v2]
    | Some v1, None => Some [removed fullPath v1]
    | Some v1, Some v2 => Some [changed fullPath v1 v2]
    | None, None => Some []
    end
  else Some [].

(** Reading a compact rendering back: the lines of a string, and the kind
    and path a line stands for. *)
Fixpoint lines_from (cur : jsstring) (s : jsstring) : list jsstring :=
  match s with
  | [] => [cur]
  | c :: rest =>
      if c =? 10 then cur :: lines_from [] rest
      else lines_from (cur ++ [c]) rest
  end.

Definition read_compact_line (line : jsstring) : option (Kind * jsstring) :=
  match line with
  | 43 :: path => Some (KAdded, path)
  | 45 :: path => Some (KRemoved, path)
  | 126 :: path => Some (KChanged, path)
  | _ => None
  end.

Definition read_compact (s : jsstring) : list (Kind * jsstring) :=
  match s with
  | [] => []
  | _ => omap read_compact_line (lines_from [] s)
  end.

(** The same entry read from the other side. *)
Definition mirror (change : DiffEntry) : DiffEntry :=
  match change with
  | added path v => removed path v
  | removed path v => added path v
  | changed path from to => changed path to from
  end.

(** [undefined], [null], a boolean or a number: a value without keys that is
    not a string. *)
Definition is_scalar (o : option value) : bool :=
  match o with
  | None | Some VNull | Some (VBool _) | Some (VNumber _) => true
  | _ => false
  end.

(** The number of properties of a value, those of the values inside it
    counted: a bound on the number of entries a diff can hold. *)
Fixpoint size (v : value) : nat :=
  match v with
  | VString s => length s
  | VArray elems => foldr (λ x n, S (size x + n)) 0%nat elems
  | VObject props => foldr (λ p n, S (size (snd p) + n)) 0%nat props
  | _ => 0%nat
  end.

Definition size_opt (o : option value) : nat :=
  match o with None => 0%nat | Some v => size v end.

Definition props_opt (o : option value) : list (jsstring * value) :=
  match o with None => [] | Some v => own_props v end.

(** What one property can contribute to a diff: one entry, or what is
    inside it when it is an object. *)
Definition child_weight (c : value) : nat :=
  S (if is_object (Some c) then size c else 0).

Definition props_weight (props : list (jsstring * value)) : nat :=
  sum_list_with (λ p, child_weight (snd p)) props.

Definition key_weight (props : list (jsstring * value)) (key : jsstring)
    : nat :=
  match lookup_prop key props with
  | Some c => child_weight c
  | None => 0%nat
  end.

(** A credential made for [secret] and the timestamp string [ts]. *)
Definition credential_request (secret ts : jsstring)
    (hdrs : gmap jsstring jsstring) (peer : option jsstring) : request :=
  {| pathname := Some (str "/ws");
     query := {[ str "_internalToken"
                   := QString (createHmac_sha256_hex secret ts);
                 str "time" := QString ts ]};
     headers := hdrs;
     remoteAddress := peer;
     handshake := true |}.

(** The same request when [wss.handleUpgrade] aborts its handshake (a
    [Sec-WebSocket-Key] missing or malformed, a version other than 8 or
    13, a method other than GET). *)
Definition aborted_handshake (req : request) : request :=
  {| pathname := pathname req; query := query req;
     headers := headers req; remoteAddress := remoteAddress req;
     handshake := false |}.


(** * Properties *)

(** ** The run-time primitives *)

Example sha256_constants :
  length K256 = 64%nat
  ∧ take 2 K256 = [0x428a2f98; 0x71374491]
  ∧ last K256 = Some 0xc67178f2
  ∧ ha H0 = 0x6a09e667 ∧ hh H0 = 0x5be0cd19.
Proof. vm_compute. repeat split; reflexivity. Qed.

(** SHA-256 and HMAC-SHA-256 on the published test vectors (FIPS 180-2,
    RFC 4231). *)
Example sha256_abc :
  hex (sha256 (Buffer_from (str "abc")))
  = str "ba7816bf8f01cfea414140de5dae2223b00361a396177a9cb410ff61f20015ad".
Proof. vm_compute. reflexivity. Qed.

Example sha256_empty :
  hex (sha256 [])
  = str "e3b0c44298fc1c149afbf4c8996fb92427ae41e4649b934ca495991b7852b855".
Proof. vm_compute. reflexivity. Qed.

Example sha256_two_blocks :
  hex (sha256 (Buffer_from
         (str "abcdbcdecdefdefgefghfghighijhijkijkljklmklmnlmnomnopnopq")))
  = str "248d6a61d20638b8e5c026930c3e6039a33ce45964ff2167f6ecedd419db06c1".
Proof. vm_compute. reflexivity. Qed.

Example hmac_rfc4231_case2 :
  createHmac_sha256_hex (str "Jefe") (str "what do ya want for nothing?")
  = str "5bdcc146bf60754e6a042426089575c75a003f089d2739839dec58b964ec3843".
Proof. vm_compute. reflexivity. Qed.

Example hmac_rfc4231_case6 :
  hex (digest_bytes (hmac_sha256_state (repeat 0xaa 131)
    (Buffer_from
       (str "Test Using Larger Than Block-Size Key - Hash Key First"))))
  = str "60e431591ee0b67f0d8a26aacbf5b77f8e0bc6213728c5140546040f0ee37f54".
Proof. vm_compute. reflexivity. Qed.

Example Buffer_from_utf8 :
  Buffer_from [0x61; 0xe9; 0x20ac; 0xd83d; 0xde00; 0xd83d]
  = [0x61; 0xc3; 0xa9; 0xe2; 0x82; 0xac; 0xf0; 0x9f; 0x98; 0x80;
     0xef; 0xbf; 0xbd].
Proof. vm_compute. reflexivity. Qed.

Example parseInt10_examples :
  parseInt10 (str "1700000000000") = Some 1700000000000%Z
  ∧ parseInt10 (str "  -12ab") = Some (-12)%Z
  ∧ parseInt10 (str "+7.5") = Some 7%Z
  ∧ parseInt10 (str "abc") = None
  ∧ parseInt10 [] = None
  ∧ parseInt10 (str "-") = None
  ∧ parseInt10 (str "0x10") = Some 0%Z.
Proof. vm_compute. repeat split; reflexivity. Qed.

Lemma hex_length (b : list N) : length (hex b) = (2 * length b)%nat.
Proof.
  unfold hex. induction b as [|x b IH]; simpl; [reflexivity|].
  rewrite IH. lia.
Qed.

Lemma digest_bytes_length (s : hstate) : length (digest_bytes s) = 32%nat.
Proof. reflexivity. Qed.

Lemma digest_bytes_range (s : hstate) :
  Forall (λ b, b < 256) (digest_bytes s).
Proof.
  unfold digest_bytes, word_bytes. simpl.
  repeat (apply Forall_cons; split; [apply N.mod_lt; discriminate|]).
  apply Forall_nil_2.
Qed.

Lemma hexdigit_lower (d : N) : d < 16 → is_lower_hex (hexdigit d).
Proof.
  intros Hd. unfold hexdigit, is_lower_hex.
  destruct (N.ltb_spec d 10); lia.
Qed.

Lemma hex_lower (b : list N) :
  Forall (λ x, x < 256) b → Forall is_lower_hex (hex b).
Proof.
  unfold hex. induction 1 as [|x b Hx _ IH]; simpl; [constructor|].
  constructor.
  - apply hexdigit_lower. apply N.Div0.div_lt_upper_bound. lia.
  - constructor; [|exact IH].
    apply hexdigit_lower. apply N.mod_lt. discriminate.
Qed.

Lemma createHmac_sha256_hex_length (key msg : jsstring) :
  length (createHmac_sha256_hex key msg) = 64%nat.
Proof. unfold createHmac_sha256_hex. rewrite hex_length. reflexivity. Qed.

Lemma createHmac_sha256_hex_lower (key msg : jsstring) :
  Forall is_lower_hex (createHmac_sha256_hex key msg).
Proof. apply hex_lower, digest_bytes_range. Qed.

Lemma Buffer_from_ascii (s : jsstring) :
  Forall (λ c, c < 128) s → Buffer_from s = s.
Proof.
  induction 1 as [|c s Hc _ IH]; simpl; [reflexivity|].
  destruct (N.ltb_spec c 128); [|lia]. by rewrite IH.
Qed.

Lemma Buffer_from_hex (key msg : jsstring) :
  Buffer_from (createHmac_sha256_hex key msg) = createHmac_sha256_hex key msg.
Proof.
  apply Buffer_from_ascii.
  eapply Forall_impl; [apply createHmac_sha256_hex_lower|].
  unfold is_lower_hex. intros c Hc. simpl in Hc. lia.
Qed.

Lemma truthy_nonempty (s : jsstring) : truthy s = true ↔ s ≠ [].
Proof. destruct s; simpl; split; congruence. Qed.

Lemma parseInt10_nonempty (s : jsstring) (n : Z) :
  parseInt10 s = Some n → s ≠ [].
Proof. intros H ->. discriminate. Qed.

Lemma timingSafeEqual_refl (b : list N) : timingSafeEqual b b = Return true.
Proof.
  unfold timingSafeEqual. rewrite Nat.eqb_refl. simpl.
  by rewrite bool_decide_eq_true_2.
Qed.

(** ** Token authenticator *)

(** A process that got past the start-up guard holds a non-empty secret. *)
Lemma startup_check_secret (MONGODB_URI TOKEN : option jsstring) :
  startup_check MONGODB_URI TOKEN = None →
  ∃ secret, TOKEN = Some secret ∧ secret ≠ [].
Proof.
  unfold startup_check. destruct (truthy_opt MONGODB_URI); [|discriminate].
  destruct TOKEN as [secret|]; [|discriminate]. cbn.
  destruct secret; [discriminate|]. intros _. eexists. split; done.
Qed.

(** Absent or empty inputs, and a timestamp that is not a number, are
    answered with [false]. *)
Lemma validateToken_absent (TOKEN token timestamp : option jsstring)
    (now : Z) :
  truthy_opt token = false ∨ truthy_opt timestamp = false
  ∨ (∃ t, timestamp = Some t ∧ parseInt10 t = None) →
  validateToken TOKEN now token timestamp = Return false.
Proof.
  unfold validateToken.
  destruct token as [tok|], timestamp as [ts|], TOKEN as [sec|];
    try reflexivity.
  intros [H | [H | (t & [= <-] & H)]]; simpl in H.
  - by rewrite H.
  - rewrite H. by rewrite orb_true_r.
  - rewrite H. by destruct (_ || _).
Qed.

(** Past the guards, the answer is that of the byte comparison. *)
Lemma validateToken_compares (secret token timestamp : jsstring)
    (now n : Z) :
  secret ≠ [] → token ≠ [] →
  parseInt10 timestamp = Some n →
  (Z.abs (now - n) ≤ 5 * 60 * 1000)%Z →
  validateToken (Some secret) now (Some token) (Some timestamp)
  = timingSafeEqual (Buffer_from token)
      (Buffer_from (createHmac_sha256_hex secret timestamp)).
Proof.
  intros Hs Ht Hp Hn. unfold validateToken.
  apply truthy_nonempty in Hs, Ht.
  pose proof (parseInt10_nonempty _ _ Hp) as Hts.
  apply truthy_nonempty in Hts.
  rewrite Hs, Ht, Hts, Hp. cbn [negb orb].
  destruct (Z.gtb_spec (Z.abs (now - n)) (5 * 60 * 1000)); [lia|reflexivity].
Qed.

(** A token whose UTF-8 length is not 64 makes the comparison throw. *)
Lemma validateToken_length_mismatch (secret token timestamp : jsstring)
    (now n : Z) :
  secret ≠ [] → token ≠ [] →
  parseInt10 timestamp = Some n →
  (Z.abs (now - n) ≤ 5 * 60 * 1000)%Z →
  length (Buffer_from token) ≠ 64%nat →
  validateToken (Some secret) now (Some token) (Some timestamp)
  = Throw ERR_CRYPTO_TIMING_SAFE_EQUAL_LENGTH.
Proof.
  intros Hs Ht Hp Hn Hlen.
  rewrite (validateToken_compares _ _ _ _ _ Hs Ht Hp Hn).
  unfold timingSafeEqual.
  rewrite Buffer_from_hex, createHmac_sha256_hex_length.
  destruct (Nat.eqb_spec (length (Buffer_from token)) 64); [done|reflexivity].
Qed.

(** A wrong token of the right length is answered with [false]. *)
Lemma validateToken_wrong_same_length (secret token timestamp : jsstring)
    (now n : Z) :
  secret ≠ [] →
  parseInt10 timestamp = Some n →
  (Z.abs (now - n) ≤ 5 * 60 * 1000)%Z →
  length (Buffer_from token) = 64%nat →
  Buffer_from token ≠ createHmac_sha256_hex secret timestamp →
  validateToken (Some secret) now (Some token) (Some timestamp)
  = Return false.
Proof.
  intros Hs Hp Hn Hlen Hne.
  assert (token ≠ []) as Ht by (intros ->; discriminate).
  rewrite (validateToken_compares _ _ _ _ _ Hs Ht Hp Hn).
  unfold timingSafeEqual.
  rewrite Buffer_from_hex, createHmac_sha256_hex_length, Hlen.
  cbn [Nat.eqb negb]. by rewrite bool_decide_eq_false_2.
Qed.

(** C2 (the code does otherwise).  [validateToken] is claimed never to
    throw and to answer [false] for every token that differs from the
    expected HMAC value, whatever its length.  For the three-character
    token ["abc"] and a fresh timestamp the call throws: the buffers handed
    to [crypto.timingSafeEqual] have 3 and 64 bytes. *)
Theorem validateToken_throws_on_short_token :
  validateToken (Some sample_secret) 1700000000000
                (Some (str "abc")) (Some sample_time)
  = Throw ERR_CRYPTO_TIMING_SAFE_EQUAL_LENGTH
  ∧ str "abc" ≠ createHmac_sha256_hex sample_secret sample_time.
Proof.
  split.
  - apply (validateToken_length_mismatch _ _ _ _ 1700000000000);
      [discriminate | discriminate | by vm_compute | lia | by vm_compute].
  - intros H. apply (f_equal length) in H.
    rewrite createHmac_sha256_hex_length in H. discriminate.
Qed.

(** The listener does not catch it: such a request ends in an uncaught
    error, after it has been counted by the rate limiter. *)
Lemma onUpgrade_short_token_uncaught :
  fst (onUpgrade (Some sample_secret) 1700000000000 1700000000000 0%nat
         short_token_request empty_world)
  = Uncaught ERR_CRYPTO_TIMING_SAFE_EQUAL_LENGTH.
Proof. vm_compute. reflexivity. Qed.

(** C4.  For every (non-empty) secret and every timestamp that reads as an
    integer within five minutes of the time of the call, [validateToken]
    accepts the credential computed for that timestamp; the credential is
    the HMAC-SHA-256 of the timestamp string keyed with the secret, as 64
    lowercase hexadecimal digits. *)
Theorem validateToken_accepts_hmac (secret timestamp : jsstring)
    (now n : Z) :
  secret ≠ [] →
  parseInt10 timestamp = Some n →
  (Z.abs (now - n) ≤ 5 * 60 * 1000)%Z →
  let token := createHmac_sha256_hex secret timestamp in
  validateToken (Some secret) now (Some token) (Some timestamp) = Return true
  ∧ token = hex (digest_bytes (hmac_sha256_state (Buffer_from secret)
                                                 (Buffer_from timestamp)))
  ∧ length token = 64%nat
  ∧ Forall is_lower_hex token.
Proof.
  intros Hs Hp Hn token. split; [|split; [|split]].
  - assert (token ≠ []) as Ht.
    { intros H. apply (f_equal length) in H. subst token.
      rewrite createHmac_sha256_hex_length in H. discriminate. }
    rewrite (validateToken_compares _ _ _ _ _ Hs Ht Hp Hn).
    apply timingSafeEqual_refl.
  - reflexivity.
  - apply createHmac_sha256_hex_length.
  - apply createHmac_sha256_hex_lower.
Qed.

Lemma validateToken_accepts_hmac_witness :
  validateToken (Some sample_secret) 1700000123456
    (Some (createHmac_sha256_hex sample_secret sample_time))
    (Some sample_time)
  = Return true.
Proof.
  refine (proj1 (validateToken_accepts_hmac sample_secret sample_time
                   1700000123456 1700000000000 _ _ _)).
  - discriminate.
  - vm_compute. reflexivity.
  - lia.
Defined.

(** C5.  Whatever the token, and whatever the secret, a timestamp more
    than five minutes away from the time of the call, before or after, is
    answered with [false]; the token is not compared (no comparison error
    can come out). *)
Theorem validateToken_rejects_stale (TOKEN token : option jsstring)
    (timestamp : jsstring) (now n : Z) :
  parseInt10 timestamp = Some n →
  (Z.abs (now - n) > 5 * 60 * 1000)%Z →
  validateToken TOKEN now token (Some timestamp) = Return false.
Proof.
  intros Hp Hn. unfold validateToken.
  destruct token as [tok|], TOKEN as [sec|]; try reflexivity.
  destruct (_ || _); [reflexivity|]. rewrite Hp.
  destruct (Z.gtb_spec (Z.abs (now - n)) (5 * 60 * 1000)); [reflexivity|lia].
Qed.

Lemma validateToken_rejects_stale_witness :
  validateToken (Some sample_secret) 1700000300001
    (Some (createHmac_sha256_hex sample_secret sample_time))
    (Some sample_time)
  = Return false
  ∧ validateToken (Some sample_secret) 1699999699999
      (Some (createHmac_sha256_hex sample_secret sample_time))
      (Some sample_time)
    = Return false.
Proof.
  split.
  - apply (validateToken_rejects_stale _ _ _ _ 1700000000000).
    + vm_compute. reflexivity.
    + lia.
  - apply (validateToken_rejects_stale _ _ _ _ 1700000000000).
    + vm_compute. reflexivity.
    + lia.
Defined.

(** ** Rate limiter *)

Lemma checkRateLimit_fresh (m : gmap jsstring RateRecord) (ip : jsstring)
    (now : Z) :
  (m !! ip = None ∨ ∃ r, m !! ip = Some r ∧ (now > resetTime r)%Z) →
  checkRateLimit now ip m
  = (true, <[ip := {| count := 1; resetTime := now + 60 * 1000 |}]> m).
Proof.
  unfold checkRateLimit, RATE_LIMIT_WINDOW.
  intros [-> | (r & -> & Hr)]; [reflexivity|].
  destruct (Z.gtb_spec now (resetTime r)); [reflexivity|lia].
Qed.

Lemma checkRateLimit_counts (m : gmap jsstring RateRecord) (ip : jsstring)
    (now : Z) (r : RateRecord) :
  m !! ip = Some r → (now ≤ resetTime r)%Z → (count r < 5)%Z →
  checkRateLimit now ip m
  = (true, <[ip := {| count := count r + 1; resetTime := resetTime r |}]> m).
Proof.
  unfold checkRateLimit, MAX_CONNECTIONS_PER_IP. intros -> Hr Hc.
  destruct (Z.gtb_spec now (resetTime r)); [lia|].
  destruct (Z.geb_spec (count r) 5); [lia|reflexivity].
Qed.

Lemma checkRateLimit_refuses (m : gmap jsstring RateRecord) (ip : jsstring)
    (now : Z) (r : RateRecord) :
  m !! ip = Some r → (now ≤ resetTime r)%Z → (count r >= 5)%Z →
  checkRateLimit now ip m = (false, m).
Proof.
  unfold checkRateLimit, MAX_CONNECTIONS_PER_IP. intros -> Hr Hc.
  destruct (Z.gtb_spec now (resetTime r)); [lia|].
  destruct (Z.geb_spec (count r) 5); [reflexivity|lia].
Qed.

Lemma checkRateLimit_refused_unchanged (m m' : gmap jsstring RateRecord)
    (ip : jsstring) (now : Z) :
  checkRateLimit now ip m = (false, m') → m' = m.
Proof.
  unfold checkRateLimit. destruct (m !! ip) as [r|]; [|discriminate].
  destruct (now >? resetTime r)%Z; [discriminate|].
  destruct (count r >=? MAX_CONNECTIONS_PER_IP)%Z; [|discriminate].
  by intros [= <-].
Qed.

(** Another address's attempt leaves this address's record alone. *)
Lemma checkRateLimit_other (m : gmap jsstring RateRecord)
    (ip ip' : jsstring) (now : Z) :
  ip ≠ ip' → snd (checkRateLimit now ip' m) !! ip = m !! ip.
Proof.
  intros Hne. unfold checkRateLimit. destruct (m !! ip') as [r|]; simpl.
  - destruct (now >? resetTime r)%Z; simpl; [by rewrite lookup_insert_ne|].
    destruct (count r >=? MAX_CONNECTIONS_PER_IP)%Z; simpl;
      [done | by rewrite lookup_insert_ne].
  - by rewrite lookup_insert_ne.
Qed.

Lemma checkRateLimit_bounded (m : gmap jsstring RateRecord) (ip : jsstring)
    (now : Z) :
  (∀ a r, m !! a = Some r → (1 ≤ count r ≤ 5)%Z) →
  ∀ a r, snd (checkRateLimit now ip m) !! a = Some r → (1 ≤ count r ≤ 5)%Z.
Proof.
  intros Hm a r. unfold checkRateLimit, MAX_CONNECTIONS_PER_IP.
  destruct (m !! ip) as [r0|] eqn:Hip; simpl.
  - destruct (now >? resetTime r0)%Z; simpl.
    + rewrite lookup_insert. case_decide; [|by apply Hm].
      intros [= <-]. simpl. lia.
    + destruct (Z.geb_spec (count r0) 5); simpl; [by apply Hm|].
      rewrite lookup_insert. case_decide; [|by apply Hm].
      intros [= <-]. simpl. specialize (Hm _ _ Hip). lia.
  - rewrite lookup_insert. case_decide; [|by apply Hm].
    intros [= <-]. simpl. lia.
Qed.

Lemma attempts_bounded (calls : list (Z * jsstring))
    (m : gmap jsstring RateRecord) :
  (∀ a r, m !! a = Some r → (1 ≤ count r ≤ 5)%Z) →
  ∀ a r, snd (attempts calls m) !! a = Some r → (1 ≤ count r ≤ 5)%Z.
Proof.
  revert m. induction calls as [|[now ip] calls IH]; intros m Hm; [done|].
  simpl. pose proof (checkRateLimit_bounded m ip now Hm) as H1.
  destruct (checkRateLimit now ip m) as [ok m1]. simpl in H1.
  specialize (IH m1 H1). destruct (attempts calls m1) as [oks m2]. done.
Qed.

(** A run of attempts of one address inside its window: the attempts are
    allowed until the count reaches 5, and the window's end never moves. *)
Lemma attempts_in_window (ip : jsstring) (ts : list Z)
    (m : gmap jsstring RateRecord) (r : RateRecord) :
  m !! ip = Some r → (count r ≤ 5)%Z →
  Forall (λ t, (t ≤ resetTime r)%Z) ts →
  attempts (map (λ t, (t, ip)) ts) m
  = (map (λ i, bool_decide (count r + Z.of_nat i < 5)%Z) (seq 0 (length ts)),
     <[ip := {| count := Z.min 5 (count r + Z.of_nat (length ts));
                resetTime := resetTime r |}]> m).
Proof.
  intros Hip Hc Hts. revert m r Hip Hc Hts.
  induction ts as [|t ts IH]; intros m r Hip Hc Hts.
  - simpl. f_equal. rewrite Z.add_0_r, Z.min_r by lia.
    symmetry. apply insert_id. by destruct r.
  - apply Forall_cons in Hts as [Ht Hts]. simpl.
    destruct (decide (count r < 5)%Z) as [Hlt|Hge].
    + rewrite (checkRateLimit_counts _ _ _ _ Hip Ht Hlt).
      rewrite (IH _ {| count := count r + 1; resetTime := resetTime r |});
        [|by rewrite lookup_insert_eq|simpl; lia|done].
      simpl. rewrite insert_insert_eq. f_equal.
      * f_equal; [rewrite bool_decide_eq_true_2; [done|lia]|].
        rewrite <- seq_shift, map_map. apply map_ext. intros i.
        apply bool_decide_ext. lia.
      * do 2 f_equal. lia.
    + rewrite (checkRateLimit_refuses _ _ _ _ Hip Ht) by lia.
      rewrite (IH _ r Hip Hc Hts). f_equal.
      * f_equal; [rewrite bool_decide_eq_false_2; [done|lia]|].
        rewrite <- seq_shift, map_map. apply map_ext. intros i.
        rewrite !bool_decide_eq_false_2; [done|lia|lia].
      * do 2 f_equal. lia.
Qed.

(** C6.  On the first attempt of an address, or on an attempt made after
    the end of its window, the record is replaced by [count = 1] and a
    window ending 60 s later, and the attempt is allowed.  From there, the
    sixth attempt within 60 s of the first is refused (the first five are
    allowed), and an attempt made after the window of the first attempt
    is allowed and sets the count back to 1. *)
Theorem checkRateLimit_window (m : gmap jsstring RateRecord)
    (ip : jsstring) (t1 : Z) :
  (m !! ip = None ∨ ∃ r, m !! ip = Some r ∧ (t1 > resetTime r)%Z) →
  checkRateLimit t1 ip m
  = (true, <[ip := {| count := 1; resetTime := t1 + 60 * 1000 |}]> m)
  ∧ (∀ t2 t3 t4 t5 t6 : Z,
       Forall (λ t, (t ≤ t1 + 60 * 1000)%Z) [t2; t3; t4; t5; t6] →
       fst (attempts [(t1, ip); (t2, ip); (t3, ip); (t4, ip); (t5, ip);
                      (t6, ip)] m)
       = [true; true; true; true; true; false])
  ∧ (∀ (ts : list Z) (t : Z),
       Forall (λ t', (t' ≤ t1 + 60 * 1000)%Z) ts →
       (t > t1 + 60 * 1000)%Z →
       let m' := snd (attempts ((t1, ip) :: map (λ t', (t', ip)) ts) m) in
       checkRateLimit t ip m'
       = (true, <[ip := {| count := 1; resetTime := t + 60 * 1000 |}]> m')).
Proof.
  intros Hfresh. pose proof (checkRateLimit_fresh m ip t1 Hfresh) as H1.
  set (r1 := {| count := 1; resetTime := t1 + 60 * 1000 |}) in *.
  assert (∀ ts, Forall (λ t, (t ≤ t1 + 60 * 1000)%Z) ts →
    attempts ((t1, ip) :: map (λ t, (t, ip)) ts) m
    = (true :: map (λ i, bool_decide (1 + Z.of_nat i < 5)%Z)
                   (seq 0 (length ts)),
       <[ip := {| count := Z.min 5 (1 + Z.of_nat (length ts));
                  resetTime := t1 + 60 * 1000 |}]> m)) as Hrun.
  { intros ts Hts. cbn [attempts]. rewrite H1.
    rewrite (attempts_in_window ip ts _ r1);
      [|by rewrite lookup_insert_eq|simpl; lia|done].
    by rewrite insert_insert_eq. }
  split; [exact H1|split].
  - intros t2 t3 t4 t5 t6 Hts.
    specialize (Hrun [t2; t3; t4; t5; t6] Hts). cbn [map] in Hrun.
    rewrite Hrun. reflexivity.
  - intros ts t Hts Ht m'. subst m'. rewrite (Hrun ts Hts). cbn [snd].
    apply checkRateLimit_fresh. right.
    eexists. split; [apply lookup_insert_eq|]. simpl. lia.
Qed.

Lemma checkRateLimit_window_witness :
  fst (attempts [(0%Z, str "10.0.0.1"); (10%Z, str "10.0.0.1");
                 (20%Z, str "10.0.0.1"); (30%Z, str "10.0.0.1");
                 (59999%Z, str "10.0.0.1"); (60000%Z, str "10.0.0.1")] ∅)
  = [true; true; true; true; true; false]
  ∧ fst (checkRateLimit 60001 (str "10.0.0.1")
           (snd (attempts
                   ((0%Z, str "10.0.0.1")
                    :: map (λ t', (t', str "10.0.0.1"))
                         [10%Z; 20%Z; 30%Z; 59999%Z; 60000%Z]) ∅)))
    = true.
Proof.
  destruct (checkRateLimit_window ∅ (str "10.0.0.1") 0
              (or_introl (lookup_empty _))) as (_ & H6 & Hnext).
  split.
  - apply H6. repeat (apply Forall_cons; split; [lia|]). apply Forall_nil_2.
  - rewrite (Hnext [10%Z; 20%Z; 30%Z; 59999%Z; 60000%Z] 60001%Z).
    + reflexivity.
    + repeat (apply Forall_cons; split; [lia|]). apply Forall_nil_2.
    + lia.
Defined.

(** C7.  Whatever attempts have been made since the (empty) start, every
    record holds a count between 1 and 5.  An attempt that finds the count
    at the maximum (inside the window, where that test is made) is refused
    and leaves the whole map as it was; and no refused attempt changes
    anything. *)
Theorem checkRateLimit_count_bounded (calls : list (Z * jsstring)) :
  (∀ ip r, snd (attempts calls ∅) !! ip = Some r →
           (1 ≤ count r ≤ MAX_CONNECTIONS_PER_IP)%Z)
  ∧ (∀ m now ip r,
       m !! ip = Some r → (now ≤ resetTime r)%Z →
       (count r >= MAX_CONNECTIONS_PER_IP)%Z →
       checkRateLimit now ip m = (false, m))
  ∧ (∀ m now ip m', checkRateLimit now ip m = (false, m') → m' = m).
Proof.
  split; [|split].
  - apply attempts_bounded. intros a r. by rewrite lookup_empty.
  - intros m now ip r. apply checkRateLimit_refuses.
  - intros m now ip m'. apply checkRateLimit_refused_unchanged.
Qed.

Lemma checkRateLimit_count_bounded_witness :
  let calls := [(0%Z, str "a"); (1%Z, str "b"); (2%Z, str "a");
                (3%Z, str "a"); (4%Z, str "a"); (5%Z, str "a");
                (6%Z, str "a"); (7%Z, str "a")] in
  let m := snd (attempts calls ∅) in
  (1 ≤ count {| count := 5; resetTime := 60000 |} ≤ 5)%Z
  ∧ checkRateLimit 60000 (str "a") m = (false, m).
Proof.
  intros calls m.
  destruct (checkRateLimit_count_bounded calls) as (Hinv & Hfull & _).
  assert (m !! str "a" = Some {| count := 5; resetTime := 60000 |}) as Hm
    by (vm_compute; reflexivity).
  split.
  - apply (Hinv (str "a")). exact Hm.
  - apply (Hfull m 60000%Z (str "a") _ Hm); unfold MAX_CONNECTIONS_PER_IP;
      simpl; lia.
Defined.

(** ** Connection registry and broadcaster *)

Lemma for_of_send (payload : jsstring) (sockets : list nat) (w : world) :
  for_of sockets (λ ws,
    state ← ws_readyState ws;
    if ReadyState_eqb state OPEN then ws_send ws payload else mret tt) w
  = (tt, World (activeSockets w) (ipConnections w) (readyState w)
           (trace w ++ map (λ ws, Send ws payload)
                           (List.filter (is_open w) sockets))).
Proof.
  revert w. induction sockets as [|ws rest IH]; intros w.
  - destruct w. cbn. by rewrite app_nil_r.
  - cbn [for_of List.filter]. unfold mbind at 1, M_bind at 1.
    unfold mbind at 1, M_bind at 1, ws_readyState. unfold is_open at 1.
    destruct (ReadyState_eqb (readyState w ws) OPEN).
    + unfold ws_send, emit. rewrite IH. cbn. by rewrite <- app_assoc.
    + unfold mret, M_ret. by rewrite IH.
Qed.

Lemma broadcast_trace (JSON_stringify : value → jsstring) (data : value)
    (w : world) :
  broadcast JSON_stringify data w
  = (tt, World (activeSockets w) (ipConnections w) (readyState w)
           (trace w ++ Stringify data
              :: map (λ ws, Send ws (JSON_stringify data))
                     (List.filter (is_open w) (activeSockets w)))).
Proof.
  unfold broadcast. unfold mbind at 1, M_bind at 1.
  unfold JSON_stringify_call at 1. unfold mbind at 1, M_bind at 1.
  unfold emit at 1. unfold mret at 1, M_ret at 1.
  unfold mbind at 1, M_bind at 1. unfold get_activeSockets.
  rewrite for_of_send. cbn. unfold is_open. cbn.
  by rewrite <- app_assoc.
Qed.

Lemma emitted_app (w w' : world) (evs : list event) :
  trace w' = trace w ++ evs → emitted w w' = evs.
Proof. unfold emitted. intros ->. by rewrite drop_app_length. Qed.

Lemma sends_to_map (ws : nat) (payload : jsstring) (l : list nat) :
  sends_to ws (map (λ ws', Send ws' payload) l)
  = map (λ _, payload) (List.filter (λ ws', bool_decide (ws' = ws)) l).
Proof.
  unfold sends_to. induction l as [|x l IH]; [reflexivity|].
  cbn. destruct (bool_decide (x = ws)); cbn; by rewrite IH.
Qed.

Lemma sends_to_stringify (ws : nat) (data : value) (tr : list event) :
  sends_to ws (Stringify data :: tr) = sends_to ws tr.
Proof. reflexivity. Qed.

Lemma stringify_count_sends (data : value) (payload : jsstring)
    (l : list nat) :
  stringify_count (Stringify data :: map (λ ws, Send ws payload) l) = 1%nat.
Proof.
  unfold stringify_count. cbn [List.filter length]. f_equal.
  induction l as [|x l IH]; [reflexivity|exact IH].
Qed.

Lemma Set_delete_not_elem (s : list nat) (ws : nat) : ws ∉ Set_delete s ws.
Proof. unfold Set_delete. rewrite list_elem_of_filter. tauto. Qed.

Lemma Set_add_NoDup (s : list nat) (ws : nat) :
  NoDup s → NoDup (Set_add s ws).
Proof.
  intros Hs. unfold Set_add. case_bool_decide as Hin; [done|].
  apply NoDup_app. split; [done|]. split; [|apply NoDup_singleton].
  intros x Hx ->%list_elem_of_singleton. done.
Qed.

Lemma Set_delete_NoDup (s : list nat) (ws : nat) :
  NoDup s → NoDup (Set_delete s ws).
Proof. apply NoDup_filter. Qed.

Lemma filter_eq_NoDup (l : list nat) (ws : nat) :
  NoDup l → ws ∈ l →
  List.filter (λ ws', bool_decide (ws' = ws)) l = [ws].
Proof.
  induction 1 as [|x l Hx Hl IH]; [by intros ?%elem_of_nil|].
  cbn [List.filter]. intros [->|Hin]%elem_of_cons.
  - rewrite bool_decide_eq_true_2 by done. f_equal.
    clear IH Hl. induction l as [|y l IH]; [done|].
    cbn [List.filter]. apply not_elem_of_cons in Hx as [Hne Hx].
    rewrite bool_decide_eq_false_2 by done. by apply IH.
  - rewrite bool_decide_eq_false_2 by (intros ->; done). by apply IH.
Qed.

(** With a registry that lists no socket twice (a [Set]), an open socket
    of the registry is sent the payload exactly once. *)
Lemma broadcast_once (JSON_stringify : value → jsstring) (data : value)
    (w : world) (ws : nat) :
  NoDup (activeSockets w) → ws ∈ activeSockets w → readyState w ws = OPEN →
  sends_to ws (emitted w (snd (broadcast JSON_stringify data w)))
  = [JSON_stringify data].
Proof.
  intros Hnd Hin Hopen.
  rewrite (emitted_app _ _ (Stringify data
             :: map (λ ws, Send ws (JSON_stringify data))
                    (List.filter (is_open w) (activeSockets w))))
    by (by rewrite broadcast_trace).
  rewrite sends_to_stringify, sends_to_map, filter_eq_NoDup; [done| |].
  - apply NoDup_ListNoDup, List.NoDup_filter, NoDup_ListNoDup, Hnd.
  - apply list_elem_of_In, filter_In. split; [by apply list_elem_of_In|].
    unfold is_open. by rewrite Hopen.
Qed.

(** C8.  [broadcast] calls [JSON.stringify] once, on the message; it then
    sends that one string to the sockets of the registry that are open, in
    the registry's order, and to nobody else: a socket that is not open is
    passed over (the loop goes on), and a socket that is not in the
    registry, such as one removed before the call, is sent nothing.  The
    registry is left as it was. *)
Theorem broadcast_delivers (JSON_stringify : value → jsstring)
    (data : value) (w : world) :
  let w' := snd (broadcast JSON_stringify data w) in
  let payload := JSON_stringify data in
  trace w' = trace w ++ emitted w w'
  ∧ emitted w w'
    = Stringify data
        :: map (λ ws, Send ws payload)
               (List.filter (is_open w) (activeSockets w))
  ∧ stringify_count (emitted w w') = 1%nat
  ∧ activeSockets w' = activeSockets w
  ∧ (∀ ws, ws ∈ activeSockets w → readyState w ws = OPEN →
           payload ∈ sends_to ws (emitted w w'))
  ∧ (∀ ws p, p ∈ sends_to ws (emitted w w') →
             ws ∈ activeSockets w ∧ readyState w ws = OPEN ∧ p = payload)
  ∧ (∀ ws w0, w = activeSockets_delete ws w0 →
              sends_to ws (emitted w w') = []).
Proof.
  intros w' payload.
  assert (trace w' = trace w ++ Stringify data
            :: map (λ ws, Send ws payload)
                   (List.filter (is_open w) (activeSockets w))) as Htr
    by (subst w'; by rewrite broadcast_trace).
  pose proof (emitted_app _ _ _ Htr) as Hem.
  assert (∀ ws p, p ∈ sends_to ws (emitted w w') →
            ws ∈ activeSockets w ∧ readyState w ws = OPEN ∧ p = payload)
    as Honly.
  { intros ws p. rewrite Hem, sends_to_stringify, sends_to_map.
    rewrite list_elem_of_fmap.
    intros (x & -> & Hx). apply list_elem_of_In, filter_In in Hx as [Hx Hws].
    apply bool_decide_eq_true in Hws as ->.
    apply filter_In in Hx as [Hin Hopen]. split; [by apply list_elem_of_In|].
    split; [|done]. unfold is_open in Hopen.
    by destruct (readyState w ws). }
  split; [by rewrite Hem|]. split; [exact Hem|]. split.
  { rewrite Hem. apply stringify_count_sends. }
  split; [subst w'; by rewrite broadcast_trace|]. split; [|split].
  - intros ws Hin Hopen. rewrite Hem, sends_to_stringify, sends_to_map.
    apply list_elem_of_fmap. exists ws. split; [done|].
    apply list_elem_of_In, filter_In. split; [|by apply bool_decide_eq_true].
    apply filter_In. split; [by apply list_elem_of_In|].
    unfold is_open. by rewrite Hopen.
  - exact Honly.
  - intros ws w0 Hw.
    destruct (sends_to ws (emitted w w')) as [|p l] eqn:Hs; [reflexivity|].
    destruct (Honly ws p) as (Hin & _); [rewrite Hs; left|].
    rewrite Hw in Hin. by apply Set_delete_not_elem in Hin.
Qed.

Lemma broadcast_delivers_witness :
  let w' := snd (broadcast (λ _, str "{}") VNull sample_world) in
  str "{}" ∈ sends_to 1%nat (emitted sample_world w')
  ∧ sends_to 2%nat (emitted sample_world w') = []
  ∧ sends_to 3%nat
      (emitted (activeSockets_delete 3%nat sample_world)
         (snd (broadcast (λ _, str "{}") VNull
                 (activeSockets_delete 3%nat sample_world))))
    = [].
Proof.
  intros w'.
  destruct (broadcast_delivers (λ _, str "{}") VNull sample_world)
    as (_ & _ & _ & _ & Hsend & _ & _).
  destruct (broadcast_delivers (λ _, str "{}") VNull
              (activeSockets_delete 3%nat sample_world))
    as (_ & _ & _ & _ & _ & _ & Hremoved).
  split; [|split].
  - apply Hsend; [vm_compute; left | reflexivity].
  - vm_compute. reflexivity.
  - apply (Hremoved 3%nat sample_world). reflexivity.
Defined.

(** ** Diff engine *)

Lemma foldl_stats_bump (diff : list DiffEntry) (s : Stats) :
  foldl stats_bump s diff
  = {| stats_added := stats_added s + count_kind KAdded diff;
       stats_removed := stats_removed s + count_kind KRemoved diff;
       stats_changed := stats_changed s + count_kind KChanged diff |}.
Proof.
  revert s. unfold count_kind.
  induction diff as [|e diff IH]; intros s.
  - destruct s. cbn. by rewrite !N.add_0_r.
  - cbn [foldl]. rewrite IH.
    destruct e; cbn [stats_bump stats_added stats_removed stats_changed
                     List.filter entry_kind Kind_eqb length];
      f_equal; lia.
Qed.

Lemma count_kind_map (k : Kind) (diff diff' : list DiffEntry) :
  map entry_kind diff' = map entry_kind diff →
  count_kind k diff' = count_kind k diff.
Proof.
  unfold count_kind. revert diff'.
  induction diff as [|e diff IH]; intros [|e' diff'] H; try discriminate;
    [reflexivity|].
  injection H as He H. cbn [List.filter]. rewrite He.
  specialize (IH _ H).
  destruct (Kind_eqb (entry_kind e) k); cbn [length]; lia.
Qed.

Example Number_toString_decimal :
  Number_toString 0 = str "0" ∧ Number_toString 7 = str "7"
  ∧ Number_toString 12 = str "12" ∧ Number_toString 4096 = str "4096".
Proof. vm_compute. repeat split; reflexivity. Qed.

(** C9.  The summary renderer yields ["Added: a, Removed: r, Changed: c"]
    where a, r and c are the numbers of added, removed and changed entries
    of the sequence, in decimal; two sequences with the same kinds of
    entries (whatever their paths and values) are rendered alike. *)
Theorem formatDiff_summary
    (JSON_stringify String_of : value → option jsstring)
    (JSON_stringify_diff : list DiffEntry → option jsstring)
    (diff : list DiffEntry) :
  formatDiff JSON_stringify String_of JSON_stringify_diff diff
             (str "summary")
  = Some (str "Added: " ++ Number_toString (count_kind KAdded diff)
          ++ str ", Removed: " ++ Number_toString (count_kind KRemoved diff)
          ++ str ", Changed: " ++ Number_toString (count_kind KChanged diff))
  ∧ ∀ diff',
      map entry_kind diff' = map entry_kind diff →
      formatDiff JSON_stringify String_of JSON_stringify_diff diff'
                 (str "summary")
      = formatDiff JSON_stringify String_of JSON_stringify_diff diff
                   (str "summary").
Proof.
  assert (∀ d, formatDiff JSON_stringify String_of JSON_stringify_diff d
                 (str "summary")
    = Some (str "Added: " ++ Number_toString (count_kind KAdded d)
            ++ str ", Removed: " ++ Number_toString (count_kind KRemoved d)
            ++ str ", Changed: " ++ Number_toString (count_kind KChanged d)))
    as H.
  { intros d. unfold formatDiff.
    replace (bool_decide (str "summary" = str "git")) with false
      by (vm_compute; reflexivity).
    replace (bool_decide (str "summary" = str "plain")) with false
      by (vm_compute; reflexivity).
    replace (bool_decide (str "summary" = str "compact")) with false
      by (vm_compute; reflexivity).
    replace (bool_decide (str "summary" = str "summary")) with true
      by (vm_compute; reflexivity).
    rewrite foldl_stats_bump.
    cbn [stats_added stats_removed stats_changed]. by rewrite !N.add_0_l. }
  split; [apply H|].
  intros diff' Hk. rewrite !H.
  by rewrite !(count_kind_map _ diff diff' Hk).
Qed.

Lemma formatDiff_summary_witness :
  formatDiff (λ _, None) (λ _, None) (λ _, None)
    [added (str "b") VNull; removed (str "c") (VBool true)] (str "summary")
  = formatDiff (λ _, None) (λ _, None) (λ _, None)
      [added (str "x.y") (VString (str "v")); removed [] VNull]
      (str "summary")
  ∧ formatDiff (λ _, None) (λ _, None) (λ _, None)
      [added (str "x.y") (VString (str "v")); removed [] VNull]
      (str "summary")
    = Some (str "Added: 1, Removed: 1, Changed: 0").
Proof.
  split.
  - apply (formatDiff_summary (λ _, None) (λ _, None) (λ _, None)
             [added (str "x.y") (VString (str "v")); removed [] VNull]).
    reflexivity.
  - rewrite (proj1 (formatDiff_summary (λ _, None) (λ _, None) (λ _, None)
                      _)).
    vm_compute. reflexivity.
Defined.

Lemma SFeqb_refl (x : spec_float) : x ≠ S754_nan → SFeqb x x = true.
Proof.
  intros Hx. unfold SFeqb, SFcompare.
  destruct x as [s|s| |s m e]; [reflexivity|by destruct s|done|].
  rewrite Z.compare_refl, Pos.compare_cont_refl. by destruct s.
Qed.

Lemma strict_equal_refl (v : option value) :
  is_object v = false →
  (∀ u, v = Some u → json_like u = true) →
  strict_equal v v = true.
Proof.
  intros Hobj Hjson. destruct v as [[| b | x | s | l | props | f | p]|];
    try reflexivity; try discriminate; cbn.
  - by apply bool_decide_eq_true.
  - apply SFeqb_refl. intros ->. by specialize (Hjson _ eq_refl).
  - by apply bool_decide_eq_true.
  - by apply bool_decide_eq_true.
Qed.

Lemma lookup_prop_In (key : jsstring) (props : list (jsstring * value))
    (v : value) :
  lookup_prop key props = Some v → ∃ k, (k, v) ∈ props.
Proof.
  induction props as [|[k u] props IH]; [discriminate|]. cbn.
  destruct (bool_decide (k = key)).
  - intros [= <-]. exists k. left.
  - intros H. destruct (IH H) as [k' Hk']. exists k'. by right.
Qed.

Lemma lookup_prop_is_Some (key : jsstring)
    (props : list (jsstring * value)) :
  key ∈ map fst props → is_Some (lookup_prop key props).
Proof.
  induction props as [|[k u] props IH]; cbn [map fst lookup_prop].
  - by intros ?%elem_of_nil.
  - case_bool_decide as Hk; [done|].
    intros [?|?]%elem_of_cons; [congruence|by apply IH].
Qed.

Lemma depth_elems_le (v : value) (elems : list value) :
  v ∈ elems → (depth v ≤ foldr (λ x n, Nat.max (depth x) n) 0 elems)%nat.
Proof.
  induction 1 as [v l|v u l _ IH]; cbn; lia.
Qed.

Lemma depth_props_le (k : jsstring) (v : value)
    (props : list (jsstring * value)) :
  (k, v) ∈ props →
  (depth v ≤ foldr (λ p n, Nat.max (depth (snd p)) n) 0 props)%nat.
Proof.
  intros H. remember (k, v) as p eqn:Hp. revert Hp.
  induction H as [p l|p q l _ IH]; intros ->; cbn; [lia|].
  specialize (IH eq_refl). lia.
Qed.

(** An own property is what [get] finds, whatever the engine. *)
Lemma get_own (E : engine) (a : value) (key : jsstring) (v : value) :
  lookup_prop key (own_props a) = Some v → get E (Some a) key = Some v.
Proof. intros H. destruct a; cbn [get]; by rewrite ?H. Qed.

(** An own property that is an object is nested strictly deeper. *)
Lemma own_depth (a : value) (key : jsstring) (v : value) :
  lookup_prop key (own_props a) = Some v → is_object (Some v) = true →
  (depth v < depth a)%nat.
Proof.
  destruct a as [| b | x | s | elems | props | f | p]; try discriminate;
    cbn [own_props depth]; intros Hget Hobj.
  - apply lookup_prop_In in Hget as [k Hk].
    apply elem_of_zip_r, list_elem_of_fmap in Hk as (c & -> & _).
    discriminate.
  - apply lookup_prop_In in Hget as [k Hk].
    apply elem_of_zip_r, depth_elems_le in Hk. lia.
  - apply lookup_prop_In in Hget as [k Hk].
    apply depth_props_le in Hk. lia.
Qed.

Lemma own_json_like (a : value) (key : jsstring) (v : value) :
  json_like a = true → lookup_prop key (own_props a) = Some v →
  json_like v = true.
Proof.
  destruct a as [| b | x | s | elems | props | f | p]; try discriminate;
    cbn [own_props json_like]; intros Hjson Hget;
    apply lookup_prop_In in Hget as [k Hk].
  - apply elem_of_zip_r, list_elem_of_fmap in Hk as (c & -> & _).
    reflexivity.
  - apply elem_of_zip_r, list_elem_of_In in Hk.
    rewrite forallb_forall in Hjson. by apply Hjson.
  - apply list_elem_of_In in Hk. rewrite forallb_forall in Hjson.
    apply (Hjson (k, v) Hk).
Qed.

(** A JSON-like value that is an object is an array or a plain object: it
    has a depth. *)
Lemma json_like_object_depth (v : value) :
  json_like v = true → is_object (Some v) = true → (0 < depth v)%nat.
Proof. destruct v; try discriminate; cbn; lia. Qed.

Lemma foldl_fixed {A B : Type} (f : A → B → A) (a : A) (l : list B) :
  (∀ x, x ∈ l → f a x = a) → foldl f a l = a.
Proof.
  induction l as [|x l IH]; cbn; [done|]. intros Hf.
  rewrite Hf by left. apply IH. intros y Hy. apply Hf. by right.
Qed.

Lemma Set_add_fold_elem (acc l : list jsstring) (x : jsstring) :
  x ∈ foldl Set_add acc l ↔ x ∈ acc ∨ x ∈ l.
Proof.
  revert acc. induction l as [|y l IH]; intros acc; cbn.
  - rewrite elem_of_nil. tauto.
  - rewrite IH, elem_of_cons. unfold Set_add. case_bool_decide as Hy.
    + split; [tauto|]. intros [H|[->|H]]; tauto.
    + rewrite elem_of_app, list_elem_of_singleton. tauto.
Qed.

Lemma Set_new_elem (l : list jsstring) (x : jsstring) :
  x ∈ Set_new l ↔ x ∈ l.
Proof.
  unfold Set_new. rewrite Set_add_fold_elem, elem_of_nil. tauto.
Qed.

Lemma keys_or_empty_own (v : value) (key : jsstring) :
  key ∈ keys_or_empty (Some v) → key ∈ map fst (own_props v).
Proof.
  cbn [keys_or_empty]. destruct (falsy v); [by intros ?%elem_of_nil|done].
Qed.

(** A spread call without arguments always fits. *)
Lemma spread_nil (E : engine) (frames : nat) : spread E frames [] = Some [].
Proof. unfold spread. rewrite bool_decide_eq_true_2; [done|cbn; lia]. Qed.

Lemma generateDiff_fuel_same (E : engine) (fuel : nat) (a : value)
    (path : jsstring) :
  (0 < fuel)%nat → (depth a ≤ fuel)%nat → json_like a = true →
  generateDiff_fuel E fuel (Some a) (Some a) path = Some [].
Proof.
  revert a path.
  induction fuel as [|fuel IH]; intros a path Hfuel Hd Hjson; [lia|].
  cbn [generateDiff_fuel]. apply foldl_fixed. intros key Hkey.
  apply Set_new_elem, elem_of_app in Hkey.
  assert (key ∈ map fst (own_props a)) as Hown
    by (destruct Hkey; by apply keys_or_empty_own).
  destruct (lookup_prop_is_Some _ _ Hown) as [v Hv].
  rewrite (get_own E a key v Hv).
  pose proof (own_json_like a key v Hjson Hv) as Hjv.
  destruct (is_object (Some v)) eqn:Hobj; cbn [andb].
  - pose proof (own_depth a key v Hv Hobj) as Hlt.
    pose proof (json_like_object_depth v Hjv Hobj) as Hpos.
    rewrite IH by (done || lia). cbn. by rewrite spread_nil.
  - rewrite strict_equal_refl; [done|done|by intros u [= <-]].
Qed.




(** Values that differ do yield entries: the four cases of the source. *)
Example generateDiff_examples :
  let one := VNumber (S754_finite false 4503599627370496 (-52)) in
  let two := VNumber (S754_finite false 4503599627370496 (-51)) in
  generateDiff node (Some (VObject [(str "a", one); (str "b", one)]))
               (Some (VObject [(str "a", one); (str "b", two)])) []
  = Some [changed (str "b") one two]
  ∧ generateDiff node (Some (VObject [(str "a", one)]))
                 (Some (VObject [(str "a", one); (str "b", two)])) []
    = Some [added (str "b") two]
  ∧ generateDiff node (Some (VObject [(str "a", one); (str "b", two)]))
                 (Some (VObject [(str "a", one)])) []
    = Some [removed (str "b") two]
  ∧ generateDiff node
      (Some (VObject [(str "x", VObject [(str "y", one)])]))
      (Some (VObject [(str "x", VObject [(str "y", two)])])) []
    = Some [changed (str "x.y") one two]
  ∧ generateDiff node (Some (VArray [one; one]))
                 (Some (VArray [one; two; two])) (str "p")
    = Some [changed (str "p.1") one two; added (str "p.2") two].
Proof. vm_compute. repeat split; reflexivity. Qed.

(** What is not an own property is read all the same: ["length"] of an
    array, the prototype of a number under ["__proto__"], an inherited
    method. *)
Example generateDiff_builtins :
  let one := number_of_nat 1 in
  let two := number_of_nat 2 in
  generateDiff node (Some (VArray [one; two]))
               (Some (VObject [(str "length", two)])) []
  = Some [removed (str "0") one; removed (str "1") two]
  ∧ generateDiff node (Some (number_of_nat 5))
      (Some (VObject [(str "__proto__", VObject [(str "x", one)])])) []
    = Some [added (str "__proto__.x") one]
  ∧ generateDiff node (Some (VObject []))
      (Some (VObject [(str "toString", one)])) []
    = Some [changed (str "toString")
              (VFunction (str "Object.prototype.toString")) one]
  ∧ generateDiff node (Some (VObject []))
      (Some (VObject [(str "__proto__", VNull)])) []
    = Some [changed (str "__proto__") (VPrototype (str "Object.prototype"))
              VNull].
Proof. vm_compute. repeat split; reflexivity. Qed.

(** ** Upgrade gatekeeper: the rate-limit key *)

Lemma ipHeaders_truthy (h : jsstring) : In h ipHeaders → truthy h = true.
Proof.
  unfold ipHeaders. cbn [In].
  intros H. repeat (destruct H as [<-|H]; [reflexivity|]). done.
Qed.

(** When a listed header is set (to a non-empty string), the key is the
    NAME of the first such header. *)
Lemma upgrade_ip_header (req : request) (h : jsstring) :
  find (λ header, truthy_opt (headers req !! header)) ipHeaders = Some h →
  upgrade_ip req = h ∧ In h ipHeaders.
Proof.
  intros Hf. unfold upgrade_ip. rewrite Hf.
  apply find_some in Hf as [Hin _].
  pose proof (ipHeaders_truthy h Hin) as Ht.
  unfold or_else, or_string. cbn [truthy_opt]. by rewrite Ht, Ht.
Qed.

(** When none is set, the key is the peer address, or ["unknown"]. *)
Lemma upgrade_ip_fallback (req : request) :
  find (λ header, truthy_opt (headers req !! header)) ipHeaders = None →
  upgrade_ip req = or_string (remoteAddress req) (str "unknown").
Proof.
  intros Hf. unfold upgrade_ip. rewrite Hf. unfold or_else. cbn [truthy_opt].
  reflexivity.
Qed.

(** C1 (the code does otherwise).  The rate-limit key is claimed to be the
    VALUE of the first listed header that is present.  For a request that
    carries [x-real-ip: 203.0.113.7] the key is the string ["x-real-ip"]:
    the attempt is counted under the header's name, and nothing is recorded
    under the address. *)
Theorem upgrade_ip_is_header_name :
  headers sample_request !! str "x-real-ip" = Some (str "203.0.113.7")
  ∧ upgrade_ip sample_request = str "x-real-ip"
  ∧ upgrade_ip sample_request ≠ str "203.0.113.7"
  ∧ (let w := snd (onUpgrade (Some sample_secret) 0 0 0%nat sample_request
                     empty_world) in
     ipConnections w !! str "x-real-ip"
     = Some {| count := 1; resetTime := 60000 |}
     ∧ ipConnections w !! str "203.0.113.7" = None).
Proof.
  assert (upgrade_ip sample_request = str "x-real-ip") as Hip
    by (vm_compute; reflexivity).
  split; [vm_compute; reflexivity|]. split; [exact Hip|]. split.
  - rewrite Hip. vm_compute. discriminate.
  - vm_compute. split; reflexivity.
Qed.

(** * Further properties of the code *)

(** ** Token authenticator: what is accepted, and when it throws *)

Lemma lor_high_bit (k x : N) : N.testbit k 7 = true → 128 ≤ N.lor k x.
Proof.
  intros Hk. destruct (N.lt_ge_cases (N.lor k x) 128) as [Hlt|]; [|done].
  assert (N.testbit (N.lor k x) 7 = true) as Hbit
    by (by rewrite N.lor_spec, Hk).
  destruct (N.eq_dec (N.lor k x) 0) as [H0|Hne].
  - rewrite H0, N.bits_0 in Hbit. discriminate.
  - rewrite N.bits_above_log2 in Hbit; [discriminate|].
    apply N.log2_lt_pow2; [lia|exact Hlt].
Qed.

(** Only an ASCII string has an all-ASCII UTF-8 encoding, and it is its own
    encoding. *)
Lemma Buffer_from_ascii_inv (s : jsstring) :
  Forall (λ b, b < 128) (Buffer_from s) → Buffer_from s = s.
Proof.
  induction s as [|c rest IH]; [done|]. cbn [Buffer_from].
  destruct (c <? 128).
  { intros [_ H]%Forall_cons. by rewrite IH. }
  assert (∀ k y l, N.testbit k 7 = true →
            ¬ Forall (λ b, b < 128) ((N.lor k y :: l))) as Hno.
  { intros k y l Hk [Hlt _]%Forall_cons.
    pose proof (lor_high_bit k y Hk). lia. }
  assert (∀ l, ¬ Forall (λ b, b < 128) (replacement ++ l)) as Hrep.
  { intros l [Hlt _]%Forall_cons. lia. }
  destruct (c <? 2048); [intros H; by apply Hno in H|].
  destruct (isHighSurrogate c).
  - destruct rest as [|d rest'].
    + intros H. by apply (Hrep []) in H.
    + destruct (isLowSurrogate d); intros H;
        [by apply Hno in H | by apply Hrep in H].
  - destruct (isLowSurrogate c); intros H;
      [by apply Hrep in H | by apply Hno in H].
Qed.

Lemma validateToken_true_inv (TOKEN token timestamp : option jsstring)
    (now : Z) :
  validateToken TOKEN now token timestamp = Return true →
  ∃ secret ts n,
    TOKEN = Some secret ∧ secret ≠ [] ∧ timestamp = Some ts
    ∧ parseInt10 ts = Some n ∧ (Z.abs (now - n) ≤ 5 * 60 * 1000)%Z
    ∧ token = Some (createHmac_sha256_hex secret ts).
Proof.
  unfold validateToken.
  destruct token as [tok|], timestamp as [ts|], TOKEN as [sec|];
    try discriminate.
  destruct (truthy tok), (truthy ts), (truthy sec) eqn:Hs; cbn [negb orb];
    try discriminate.
  destruct (parseInt10 ts) as [n|] eqn:Hp; [|discriminate].
  destruct (Z.gtb_spec (Z.abs (now - n)) (5 * 60 * 1000)); [discriminate|].
  unfold timingSafeEqual. destruct (negb _); [discriminate|].
  rewrite Buffer_from_hex.
  pose proof (createHmac_sha256_hex_lower sec ts) as Hlower.
  remember (createHmac_sha256_hex sec ts) as expected eqn:He.
  intros [= Hb]. apply bool_decide_eq_true in Hb.
  assert (Buffer_from tok = tok) as Htok.
  { apply Buffer_from_ascii_inv. rewrite Hb.
    eapply Forall_impl; [exact Hlower|].
    unfold is_lower_hex. intros c Hc. cbn beta in Hc. lia. }
  exists sec, ts, n.
  split; [done|]. split; [by apply (proj1 (truthy_nonempty sec))|].
  split; [done|]. split; [done|]. split; [lia|]. subst expected. congruence.
Qed.

(** X1.  [validateToken] answers [true] only for the one credential of its
    timestamp: the secret is set, the timestamp string reads as an integer
    within five minutes of the call, and the token is, code unit for code
    unit, the lowercase hexadecimal HMAC-SHA-256 of that timestamp string. *)
Theorem validateToken_accepts_only_hmac
    (TOKEN token timestamp : option jsstring) (now : Z) :
  validateToken TOKEN now token timestamp = Return true →
  ∃ secret ts n,
    TOKEN = Some secret ∧ secret ≠ [] ∧ timestamp = Some ts
    ∧ parseInt10 ts = Some n ∧ (Z.abs (now - n) ≤ 5 * 60 * 1000)%Z
    ∧ token = Some (createHmac_sha256_hex secret ts).
Proof. apply validateToken_true_inv. Qed.

Lemma validateToken_accepts_only_hmac_witness :
  ∃ secret ts n,
    Some sample_secret = Some secret ∧ secret ≠ []
    ∧ Some sample_time = Some ts
    ∧ parseInt10 ts = Some n
    ∧ (Z.abs (1700000000777 - n) ≤ 5 * 60 * 1000)%Z
    ∧ Some (createHmac_sha256_hex sample_secret sample_time)
      = Some (createHmac_sha256_hex secret ts).
Proof.
  apply (validateToken_accepts_only_hmac (Some sample_secret)
           (Some (createHmac_sha256_hex sample_secret sample_time))
           (Some sample_time) 1700000000777).
  vm_compute. reflexivity.
Defined.

(** X2.  [validateToken] throws in exactly one situation: all three strings
    are non-empty, the timestamp reads as an integer within five minutes of
    the call, and the token's UTF-8 encoding is not 64 bytes long.  In
    every other situation it returns a boolean. *)
Theorem validateToken_throws_iff
    (TOKEN token timestamp : option jsstring) (now : Z) (e : error) :
  validateToken TOKEN now token timestamp = Throw e
  ↔ ∃ secret tok ts n,
      TOKEN = Some secret ∧ token = Some tok ∧ timestamp = Some ts
      ∧ secret ≠ [] ∧ tok ≠ [] ∧ parseInt10 ts = Some n
      ∧ (Z.abs (now - n) ≤ 5 * 60 * 1000)%Z
      ∧ length (Buffer_from tok) ≠ 64%nat.
Proof.
  split.
  - unfold validateToken.
    destruct token as [tok|], timestamp as [ts|], TOKEN as [sec|];
      try discriminate.
    destruct (truthy tok) eqn:Ht, (truthy ts), (truthy sec) eqn:Hs;
      cbn [negb orb]; try discriminate.
    destruct (parseInt10 ts) as [n|] eqn:Hp; [|discriminate].
    destruct (Z.gtb_spec (Z.abs (now - n)) (5 * 60 * 1000)); [discriminate|].
    unfold timingSafeEqual. rewrite Buffer_from_hex.
    rewrite createHmac_sha256_hex_length.
    destruct (Nat.eqb_spec (length (Buffer_from tok)) 64); cbn [negb];
      [discriminate|]. intros _.
    exists sec, tok, ts, n.
    split; [done|]. split; [done|]. split; [done|].
    split; [by apply (proj1 (truthy_nonempty sec))|].
    split; [by apply (proj1 (truthy_nonempty tok))|].
    split; [done|]. split; [lia|done].
  - intros (sec & tok & ts & n & -> & -> & -> & Hs & Ht & Hp & Hn & Hlen).
    destruct e. by apply (validateToken_length_mismatch _ _ _ _ n).
Qed.

Lemma validateToken_throws_iff_witness :
  validateToken (Some sample_secret) 1700000000000
    (Some (createHmac_sha256_hex sample_secret sample_time
           ++ createHmac_sha256_hex sample_secret sample_time))
    (Some sample_time)
  = Throw ERR_CRYPTO_TIMING_SAFE_EQUAL_LENGTH.
Proof.
  apply validateToken_throws_iff.
  exists sample_secret,
    (createHmac_sha256_hex sample_secret sample_time
     ++ createHmac_sha256_hex sample_secret sample_time),
    sample_time, 1700000000000%Z.
  split; [done|]. split; [done|]. split; [done|].
  split; [discriminate|]. split; [by vm_compute|].
  split; [by vm_compute|]. split; [lia|by vm_compute].
Defined.

(** ** Rate limiter: what a run of attempts does to the map *)

(** The answer to an attempt, and what it leaves for its address, depend
    on that address's record only. *)
Lemma checkRateLimit_local (m m0 : gmap jsstring RateRecord)
    (ip : jsstring) (now : Z) :
  m !! ip = m0 !! ip →
  fst (checkRateLimit now ip m) = fst (checkRateLimit now ip m0)
  ∧ snd (checkRateLimit now ip m) !! ip
    = snd (checkRateLimit now ip m0) !! ip.
Proof.
  intros H. unfold checkRateLimit. rewrite H.
  destruct (m0 !! ip) as [r|] eqn:Hr; cbn.
  - destruct (now >? resetTime r)%Z; cbn;
      [by rewrite !lookup_insert_eq|].
    destruct (count r >=? MAX_CONNECTIONS_PER_IP)%Z; cbn;
      [split; congruence | by rewrite !lookup_insert_eq].
  - by rewrite !lookup_insert_eq.
Qed.

Lemma attempts_local (ip : jsstring) (calls : list (Z * jsstring))
    (m m0 : gmap jsstring RateRecord) :
  m !! ip = m0 !! ip →
  results_of ip calls (fst (attempts calls m))
  = fst (attempts (calls_of ip calls) m0)
  ∧ snd (attempts calls m) !! ip
    = snd (attempts (calls_of ip calls) m0) !! ip.
Proof.
  revert m m0. induction calls as [|[now a] calls IH]; intros m m0 H;
    [done|].
  cbn [attempts calls_of List.filter snd].
  destruct (decide (a = ip)) as [->|Hne].
  - rewrite bool_decide_eq_true_2 by done. cbn [attempts].
    destruct (checkRateLimit_local m m0 ip now H) as [Hok Hm].
    destruct (checkRateLimit now ip m) as [ok m1].
    destruct (checkRateLimit now ip m0) as [ok0 m2]. cbn in Hok, Hm.
    specialize (IH m1 m2 Hm). fold (calls_of ip calls).
    destruct (attempts calls m1) as [oks m1'].
    destruct (attempts (calls_of ip calls) m2) as [oks0 m2'].
    cbn in IH |- *. destruct IH as [IH1 IH2]. split; [|done].
    unfold results_of in *. cbn [zip_with List.filter snd map fst].
    rewrite bool_decide_eq_true_2 by done. cbn. by rewrite IH1, Hok.
  - rewrite bool_decide_eq_false_2 by done.
    pose proof (checkRateLimit_other m ip a now (not_eq_sym Hne)) as Hm.
    destruct (checkRateLimit now a m) as [ok m1]. cbn in Hm.
    assert (m1 !! ip = m0 !! ip) as H1 by congruence.
    specialize (IH m1 m0 H1). fold (calls_of ip calls).
    destruct (attempts calls m1) as [oks m1']. cbn in IH |- *.
    destruct IH as [IH1 IH2]. split; [|done].
    unfold results_of in *. cbn [zip_with List.filter snd map fst].
    by rewrite bool_decide_eq_false_2 by done.
Qed.

(** X3.  Addresses do not interfere: in any interleaving of attempts, the
    answers given to one address, and the record left for it, are those the
    same attempts of that address would get with all the other attempts
    taken out. *)
Theorem attempts_noninterference (ip : jsstring)
    (calls : list (Z * jsstring)) (m : gmap jsstring RateRecord) :
  results_of ip calls (fst (attempts calls m))
  = fst (attempts (calls_of ip calls) m)
  ∧ snd (attempts calls m) !! ip
    = snd (attempts (calls_of ip calls) m) !! ip.
Proof. by apply attempts_local. Qed.

Lemma checkRateLimit_keeps (m : gmap jsstring RateRecord)
    (ip a : jsstring) (now : Z) (r : RateRecord) :
  m !! a = Some r →
  ∃ r', snd (checkRateLimit now ip m) !! a = Some r'
        ∧ (resetTime r ≤ resetTime r')%Z.
Proof.
  intros Ha. destruct (decide (a = ip)) as [->|Hne].
  - unfold checkRateLimit, RATE_LIMIT_WINDOW. rewrite Ha.
    destruct (Z.gtb_spec now (resetTime r)); cbn.
    + eexists. rewrite lookup_insert_eq. split; [done|]. cbn. lia.
    + destruct (count r >=? MAX_CONNECTIONS_PER_IP)%Z; cbn.
      * exists r. split; [done|lia].
      * eexists. rewrite lookup_insert_eq. split; [done|]. cbn. lia.
  - exists r. rewrite checkRateLimit_other by done. split; [done|lia].
Qed.

Lemma checkRateLimit_records (m : gmap jsstring RateRecord)
    (ip : jsstring) (now : Z) :
  is_Some (snd (checkRateLimit now ip m) !! ip).
Proof.
  unfold checkRateLimit. destruct (m !! ip) as [r|] eqn:Hr; cbn.
  - destruct (now >? resetTime r)%Z; cbn;
      [by rewrite lookup_insert_eq|].
    destruct (count r >=? MAX_CONNECTIONS_PER_IP)%Z; cbn;
      [by rewrite Hr | by rewrite lookup_insert_eq].
  - by rewrite lookup_insert_eq.
Qed.

Lemma attempts_keeps (calls : list (Z * jsstring))
    (m : gmap jsstring RateRecord) (a : jsstring) (r : RateRecord) :
  m !! a = Some r →
  ∃ r', snd (attempts calls m) !! a = Some r'
        ∧ (resetTime r ≤ resetTime r')%Z.
Proof.
  revert m r. induction calls as [|[now ip] calls IH]; intros m r Ha.
  - exists r. split; [done|lia].
  - cbn [attempts].
    destruct (checkRateLimit_keeps m ip a now r Ha) as (r1 & H1 & Hle1).
    destruct (checkRateLimit now ip m) as [ok m1]. cbn in H1.
    destruct (IH m1 r1 H1) as (r2 & H2 & Hle2).
    destruct (attempts calls m1) as [oks m2]. cbn in H2 |- *.
    exists r2. split; [done|lia].
Qed.

(** X4.  Nothing is ever evicted, and a window's end never moves back: an
    address that has a record keeps one through any run of attempts, with a
    [resetTime] at least as late; and every address that attempts has a
    record afterwards. *)
Theorem attempts_never_evict (calls : list (Z * jsstring))
    (m : gmap jsstring RateRecord) :
  (∀ a r, m !! a = Some r →
          ∃ r', snd (attempts calls m) !! a = Some r'
                ∧ (resetTime r ≤ resetTime r')%Z)
  ∧ (∀ now ip, (now, ip) ∈ calls → is_Some (snd (attempts calls m) !! ip)).
Proof.
  split; [intros a r; apply attempts_keeps|].
  revert m. induction calls as [|[t a] calls IH]; intros m now ip Hin;
    [by apply elem_of_nil in Hin|].
  cbn [attempts]. apply elem_of_cons in Hin as [[= -> ->]|Hin].
  - destruct (checkRateLimit_records m a t) as [r1 H1].
    destruct (checkRateLimit t a m) as [ok m1]. cbn in H1.
    destruct (attempts_keeps calls m1 a r1 H1) as (r2 & H2 & _).
    destruct (attempts calls m1) as [oks m2]. cbn in H2 |- *. by eexists.
  - destruct (checkRateLimit t a m) as [ok m1].
    specialize (IH m1 now ip Hin).
    by destruct (attempts calls m1) as [oks m2].
Qed.

Lemma attempts_never_evict_witness :
  let m := snd (attempts [(0%Z, str "a"); (70000%Z, str "b");
                          (80000%Z, str "a")]
                  {[ str "c" := {| count := 5; resetTime := 10 |} ]}) in
  (∃ r', m !! str "c" = Some r' ∧ (10 ≤ resetTime r')%Z)
  ∧ is_Some (m !! str "b").
Proof.
  intros m.
  destruct (attempts_never_evict
              [(0%Z, str "a"); (70000%Z, str "b"); (80000%Z, str "a")]
              {[ str "c" := {| count := 5; resetTime := 10 |} ]})
    as [Hkeep Hrec].
  split.
  - apply (Hkeep (str "c") {| count := 5; resetTime := 10 |}).
    by vm_compute.
  - apply (Hrec 70000%Z (str "b")). right. left.
Defined.

Lemma attempts_app (l1 l2 : list (Z * jsstring))
    (m : gmap jsstring RateRecord) :
  attempts (l1 ++ l2) m
  = (fst (attempts l1 m) ++ fst (attempts l2 (snd (attempts l1 m))),
     snd (attempts l2 (snd (attempts l1 m)))).
Proof.
  revert m. induction l1 as [|[now ip] l1 IH]; intros m.
  - cbn. by destruct (attempts l2 m).
  - cbn [app attempts]. destruct (checkRateLimit now ip m) as [ok m1].
    rewrite IH. destruct (attempts l1 m1) as [oks m2]. done.
Qed.

Lemma attempts_window_run (m : gmap jsstring RateRecord) (ip : jsstring)
    (t1 : Z) (ts : list Z) :
  (m !! ip = None ∨ ∃ r, m !! ip = Some r ∧ (t1 > resetTime r)%Z) →
  Forall (λ t, (t ≤ t1 + 60 * 1000)%Z) ts →
  attempts ((t1, ip) :: map (λ t, (t, ip)) ts) m
  = (true :: map (λ i, bool_decide (1 + Z.of_nat i < 5)%Z)
                 (seq 0 (length ts)),
     <[ip := {| count := Z.min 5 (1 + Z.of_nat (length ts));
                resetTime := t1 + 60 * 1000 |}]> m).
Proof.
  intros Hfresh Hts. cbn [attempts].
  rewrite (checkRateLimit_fresh m ip t1 Hfresh).
  rewrite (attempts_in_window ip ts _
             {| count := 1; resetTime := t1 + 60 * 1000 |});
    [|by rewrite lookup_insert_eq|cbn; lia|done].
  by rewrite insert_insert_eq.
Qed.

(** X5.  The window is fixed, not sliding: five attempts inside one window
    and five more right after its end are all allowed, however close
    together the ten are. *)
Theorem checkRateLimit_boundary_burst (m : gmap jsstring RateRecord)
    (ip : jsstring) (t1 t2 t3 t4 t5 t6 t7 t8 t9 t10 : Z) :
  (m !! ip = None ∨ ∃ r, m !! ip = Some r ∧ (t1 > resetTime r)%Z) →
  Forall (λ t, (t ≤ t1 + 60 * 1000)%Z) [t2; t3; t4; t5] →
  (t6 > t1 + 60 * 1000)%Z →
  Forall (λ t, (t ≤ t6 + 60 * 1000)%Z) [t7; t8; t9; t10] →
  fst (attempts [(t1, ip); (t2, ip); (t3, ip); (t4, ip); (t5, ip);
                 (t6, ip); (t7, ip); (t8, ip); (t9, ip); (t10, ip)] m)
  = [true; true; true; true; true; true; true; true; true; true].
Proof.
  intros Hfresh Ha Ht6 Hb.
  change [(t1, ip); (t2, ip); (t3, ip); (t4, ip); (t5, ip);
          (t6, ip); (t7, ip); (t8, ip); (t9, ip); (t10, ip)]
    with (((t1, ip) :: map (λ t, (t, ip)) [t2; t3; t4; t5])
          ++ ((t6, ip) :: map (λ t, (t, ip)) [t7; t8; t9; t10])).
  rewrite attempts_app. cbn [fst].
  rewrite (attempts_window_run m ip t1 [t2; t3; t4; t5] Hfresh Ha).
  cbn [fst snd].
  rewrite (attempts_window_run _ ip t6 [t7; t8; t9; t10]); [reflexivity| |done].
  right. eexists. split; [apply lookup_insert_eq|]. cbn. lia.
Qed.

Lemma checkRateLimit_boundary_burst_witness :
  fst (attempts [(0%Z, str "a"); (60000%Z, str "a"); (60000%Z, str "a");
                 (60000%Z, str "a"); (60000%Z, str "a"); (60001%Z, str "a");
                 (60001%Z, str "a"); (60001%Z, str "a"); (60001%Z, str "a");
                 (60001%Z, str "a")] ∅)
  = [true; true; true; true; true; true; true; true; true; true].
Proof.
  apply (checkRateLimit_boundary_burst ∅ (str "a")).
  - left. apply lookup_empty.
  - repeat (apply Forall_cons; split; [lia|]). apply Forall_nil_2.
  - lia.
  - repeat (apply Forall_cons; split; [lia|]). apply Forall_nil_2.
Defined.

(** ** Upgrade gatekeeper: the order of the gates *)

Lemma or_else_None_Some (x : option jsstring) (s : jsstring) :
  or_else x None = Some s → x = Some s ∧ s ≠ [].
Proof.
  unfold or_else. destruct (truthy_opt x) eqn:Ht; [|discriminate].
  intros ->. split; [done|]. by apply (proj1 (truthy_nonempty s)).
Qed.

Lemma or_else_None_None (x : option jsstring) :
  or_else x None = None ↔ truthy_opt x = false.
Proof.
  unfold or_else. destruct (truthy_opt x) eqn:Ht; [|done].
  destruct x; [|discriminate]. split; discriminate.
Qed.

Lemma set_ipConnections_same (w : world) :
  set_ipConnections (ipConnections w) w = w.
Proof. by destruct w. Qed.

(** X6.  A request for another path is destroyed without being counted;
    a request for [/ws] is counted by the limiter whatever becomes of it
    afterwards (refused, unauthorized, upgraded or crashed), and that is
    all it does to the limiter's map. *)
Theorem onUpgrade_charges_limiter (TOKEN : option jsstring) (now1 now2 : Z)
    (ws : nat) (req : request) (w : world) :
  (pathname req ≠ Some (str "/ws") →
   onUpgrade TOKEN now1 now2 ws req w = (Destroyed, w))
  ∧ (pathname req = Some (str "/ws") →
     ipConnections (snd (onUpgrade TOKEN now1 now2 ws req w))
     = snd (checkRateLimit now1 (upgrade_ip req) (ipConnections w))).
Proof.
  unfold onUpgrade. split; intros Hp.
  - by rewrite bool_decide_eq_false_2.
  - rewrite bool_decide_eq_true_2 by done. cbn [negb].
    destruct (checkRateLimit now1 (upgrade_ip req) (ipConnections w))
      as [ok m].
    destruct ok; cbn [negb snd]; [|done].
    destruct (validateToken _ _ _ _) as [[|]|]; try done.
    by destruct (handshake req).
Qed.

Lemma onUpgrade_charges_limiter_witness :
  onUpgrade (Some sample_secret) 0 0 0%nat
    {| pathname := Some (str "/diff"); query := ∅; headers := ∅;
       remoteAddress := None; handshake := true |} empty_world
  = (Destroyed, empty_world)
  ∧ ipConnections
      (snd (onUpgrade (Some sample_secret) 0 0 0%nat sample_request
              empty_world))
    = snd (checkRateLimit 0 (upgrade_ip sample_request) ∅).
Proof.
  split.
  - apply (onUpgrade_charges_limiter (Some sample_secret) 0 0 0%nat).
    by vm_compute.
  - apply (onUpgrade_charges_limiter (Some sample_secret) 0 0 0%nat
             sample_request empty_world).
    reflexivity.
Defined.

(** X7.  The limiter comes first: once the key of a request has used up
    its five attempts of the window, the request is answered 429 and
    nothing changes, whatever its credential; a correct credential does not
    help, and a malformed one is not even looked at. *)
Theorem onUpgrade_limiter_first (TOKEN : option jsstring) (now1 now2 : Z)
    (ws : nat) (req : request) (w : world) (r : RateRecord) :
  pathname req = Some (str "/ws") →
  ipConnections w !! upgrade_ip req = Some r →
  (now1 ≤ resetTime r)%Z → (count r >= 5)%Z →
  onUpgrade TOKEN now1 now2 ws req w = (TooManyRequests, w).
Proof.
  intros Hp Hr Hnow Hc. unfold onUpgrade.
  rewrite bool_decide_eq_true_2 by done. cbn [negb].
  rewrite (checkRateLimit_refuses _ _ _ _ Hr Hnow Hc). cbn [negb].
  by rewrite set_ipConnections_same.
Qed.

Lemma onUpgrade_limiter_first_witness :
  let w := World [] {[ str "10.0.0.1" := {| count := 5; resetTime := 9 |} ]}
                 (λ _, OPEN) [] in
  onUpgrade (Some sample_secret) 9 1700000000000 0%nat
    (credential_request sample_secret sample_time ∅ (Some (str "10.0.0.1")))
    w
  = (TooManyRequests, w).
Proof.
  intros w.
  apply (onUpgrade_limiter_first _ _ _ _ _ w
           {| count := 5; resetTime := 9 |}).
  - reflexivity.
  - by vm_compute.
  - cbn. lia.
  - cbn. lia.
Defined.

(** A request with a good credential whose handshake [wss.handleUpgrade]
    aborts: the limiter has counted it, and nothing is registered. *)
Example onUpgrade_aborted_handshake :
  let req := aborted_handshake
               (credential_request sample_secret sample_time ∅ None) in
  let out := onUpgrade (Some sample_secret) 5 1700000000000 7%nat req
               empty_world in
  fst out = HandshakeAborted
  ∧ activeSockets (snd out) = []
  ∧ ipConnections (snd out) !! str "unknown"
    = Some {| count := 1; resetTime := 60005 |}.
Proof. vm_compute. split; [|split]; reflexivity. Qed.

(** X8.  Only a fresh, correct credential with a completed handshake gets
    a socket into the registry: when the listener upgrades, the request
    was for [/ws], carried the HMAC of its [time] parameter under the
    secret, with the time within five minutes of the call, and
    [wss.handleUpgrade] completed the handshake and called back; the
    registry then gains exactly that socket.  In every other outcome, a
    handshake that [wss.handleUpgrade] aborts included, the registry is
    left as it was. *)
Theorem onUpgrade_registry (TOKEN : option jsstring) (now1 now2 : Z)
    (ws : nat) (req : request) (w : world) :
  let out := onUpgrade TOKEN now1 now2 ws req w in
  (fst out = Upgraded →
   pathname req = Some (str "/ws")
   ∧ handshake req = true
   ∧ activeSockets (snd out) = Set_add (activeSockets w) ws
   ∧ ∃ secret ts n,
       TOKEN = Some secret
       ∧ qvalue_toString <$> query req !! str "time" = Some ts
       ∧ qvalue_toString <$> query req !! str "_internalToken"
         = Some (createHmac_sha256_hex secret ts)
       ∧ parseInt10 ts = Some n
       ∧ (Z.abs (now2 - n) ≤ 5 * 60 * 1000)%Z)
  ∧ (fst out ≠ Upgraded → activeSockets (snd out) = activeSockets w).
Proof.
  cbn zeta. unfold onUpgrade.
  destruct (bool_decide (pathname req = Some (str "/ws"))) eqn:Hp;
    cbn [negb]; [|split; [discriminate|done]].
  apply bool_decide_eq_true in Hp.
  destruct (checkRateLimit now1 (upgrade_ip req) (ipConnections w))
    as [ok m].
  destruct ok; cbn [negb]; [|split; [discriminate|done]].
  destruct (validateToken _ _ _ _) as [[|]|] eqn:Hv; cbn [fst snd];
    [|split; [discriminate|done]..].
  destruct (handshake req) eqn:Hh; cbn [fst snd];
    [|split; [discriminate|done]].
  split; [intros _|done]. split; [done|]. split; [done|]. split; [done|].
  apply validateToken_true_inv in Hv
    as (secret & ts & n & -> & _ & Hts & Hn & Hfresh & Htok).
  apply or_else_None_Some in Hts as [Hts _].
  apply or_else_None_Some in Htok as [Htok _].
  by exists secret, ts, n.
Qed.

Lemma onUpgrade_registry_witness :
  let out := onUpgrade (Some sample_secret) 5 1700000000000 7%nat
               (credential_request sample_secret sample_time ∅ None)
               empty_world in
  activeSockets (snd out) = [7%nat]
  ∧ activeSockets
      (snd (onUpgrade (Some sample_secret) 5 1700000000000 7%nat
              sample_request empty_world))
    = []
  ∧ activeSockets
      (snd (onUpgrade (Some sample_secret) 5 1700000000000 7%nat
              (aborted_handshake
                 (credential_request sample_secret sample_time ∅ None))
              empty_world))
    = [].
Proof.
  intros out. split; [|split].
  - destruct (onUpgrade_registry (Some sample_secret) 5 1700000000000 7%nat
                (credential_request sample_secret sample_time ∅ None)
                empty_world) as [Hup _].
    destruct Hup as (_ & _ & Hreg & _); [by vm_compute|]. exact Hreg.
  - destruct (onUpgrade_registry (Some sample_secret) 5 1700000000000 7%nat
                sample_request empty_world) as [_ Hno].
    apply Hno. by vm_compute.
  - destruct (onUpgrade_registry (Some sample_secret) 5 1700000000000 7%nat
                (aborted_handshake
                   (credential_request sample_secret sample_time ∅ None))
                empty_world) as [_ Hno].
    apply Hno. by vm_compute.
Defined.

(** X9.  A [/ws] request that the limiter lets through, with a fresh
    numeric [time] and a non-empty token whose UTF-8 encoding is not 64
    bytes long, ends in an uncaught [RangeError]: nothing is written back,
    the socket is not registered, and the attempt stays counted. *)
Theorem onUpgrade_uncaught (secret tok ts : jsstring) (now1 now2 n : Z)
    (ws : nat) (req : request) (w : world) :
  pathname req = Some (str "/ws") →
  fst (checkRateLimit now1 (upgrade_ip req) (ipConnections w)) = true →
  secret ≠ [] → tok ≠ [] →
  qvalue_toString <$> query req !! str "_internalToken" = Some tok →
  qvalue_toString <$> query req !! str "time" = Some ts →
  parseInt10 ts = Some n → (Z.abs (now2 - n) ≤ 5 * 60 * 1000)%Z →
  length (Buffer_from tok) ≠ 64%nat →
  onUpgrade (Some secret) now1 now2 ws req w
  = (Uncaught ERR_CRYPTO_TIMING_SAFE_EQUAL_LENGTH,
     set_ipConnections
       (snd (checkRateLimit now1 (upgrade_ip req) (ipConnections w))) w).
Proof.
  intros Hp Hok Hs Ht Htok Hts Hn Hfresh Hlen. unfold onUpgrade.
  rewrite bool_decide_eq_true_2 by done. cbn [negb].
  destruct (checkRateLimit now1 (upgrade_ip req) (ipConnections w))
    as [ok m]. cbn in Hok. subst ok. cbn [negb snd].
  rewrite Htok, Hts. unfold or_else. cbn [truthy_opt].
  rewrite (proj2 (truthy_nonempty tok) Ht).
  rewrite (proj2 (truthy_nonempty ts) (parseInt10_nonempty _ _ Hn)).
  by rewrite (validateToken_length_mismatch _ _ _ _ n).
Qed.

Lemma onUpgrade_uncaught_witness :
  fst (onUpgrade (Some sample_secret) 0 1700000000000 0%nat
         {| pathname := Some (str "/ws");
            query := {[ str "_internalToken"
                          := QArray [str "abc"; str "def"];
                        str "time" := QString sample_time ]};
            headers := ∅; remoteAddress := None; handshake := true |}
         empty_world)
  = Uncaught ERR_CRYPTO_TIMING_SAFE_EQUAL_LENGTH.
Proof.
  rewrite (onUpgrade_uncaught sample_secret (str "abc,def") sample_time
             0 1700000000000 1700000000000); try reflexivity;
    try discriminate; by vm_compute.
Defined.

(** X10.  A [/ws] request without a token or without a time (the
    parameter is missing or empty) is never upgraded and never crashes the
    listener: it is answered 429 or 401. *)
Theorem onUpgrade_missing_parameter (TOKEN : option jsstring)
    (now1 now2 : Z) (ws : nat) (req : request) (w : world) :
  pathname req = Some (str "/ws") →
  truthy_opt (qvalue_toString <$> query req !! str "_internalToken") = false
  ∨ truthy_opt (qvalue_toString <$> query req !! str "time") = false →
  let out := onUpgrade TOKEN now1 now2 ws req w in
  (fst out = TooManyRequests ∨ fst out = Unauthorized)
  ∧ activeSockets (snd out) = activeSockets w.
Proof.
  intros Hp Hmiss. cbn zeta. unfold onUpgrade.
  rewrite bool_decide_eq_true_2 by done. cbn [negb].
  destruct (checkRateLimit now1 (upgrade_ip req) (ipConnections w))
    as [ok m].
  destruct ok; cbn [negb fst snd]; [|by split; [left|]].
  rewrite validateToken_absent; [by split; [right|]|].
  destruct Hmiss as [H|H]; apply or_else_None_None in H; rewrite H;
    [by left | by right; left].
Qed.

Lemma onUpgrade_missing_parameter_witness :
  fst (onUpgrade (Some sample_secret) 0 0 0%nat sample_request empty_world)
  = TooManyRequests
  ∨ fst (onUpgrade (Some sample_secret) 0 0 0%nat sample_request
           empty_world)
    = Unauthorized.
Proof.
  apply (onUpgrade_missing_parameter (Some sample_secret) 0 0 0%nat
           sample_request empty_world).
  - reflexivity.
  - left. by vm_compute.
Defined.

(** ** Registry and change feed: who is sent what, and in which order *)

Lemma Set_delete_absent (s : list nat) (ws : nat) :
  ws ∉ s → Set_delete s ws = s.
Proof.
  unfold Set_delete. induction s as [|x s IH]; [done|].
  intros [Hne Hs]%not_elem_of_cons.
  rewrite filter_cons_True by done. by rewrite IH.
Qed.

Lemma Set_add_present (s : list nat) (ws : nat) :
  ws ∈ s → Set_add s ws = s.
Proof. intros H. unfold Set_add. by rewrite bool_decide_eq_true_2. Qed.

Lemma Set_add_elem (s : list nat) (ws : nat) : ws ∈ Set_add s ws.
Proof.
  unfold Set_add. case_bool_decide; [done|].
  apply elem_of_app. right. by left.
Qed.

(** X11.  The registry is a set: registering a socket twice, closing it
    twice, or closing one that was never registered changes nothing
    further; closing a socket removes it and no other socket. *)
Theorem registry_add_delete (ws ws' : nat) (w : world) :
  activeSockets_add ws (activeSockets_add ws w) = activeSockets_add ws w
  ∧ activeSockets_delete ws (activeSockets_delete ws w)
    = activeSockets_delete ws w
  ∧ (ws ∉ activeSockets w → activeSockets_delete ws w = w)
  ∧ (ws ∉ activeSockets (activeSockets_delete ws (activeSockets_add ws w)))
  ∧ (ws' ≠ ws →
     (ws' ∈ activeSockets (activeSockets_delete ws w)
      ↔ ws' ∈ activeSockets w)).
Proof.
  destruct w as [reg m rs tr].
  unfold activeSockets_add, activeSockets_delete. cbn.
  split; [|split; [|split; [|split]]].
  - f_equal. apply Set_add_present, Set_add_elem.
  - f_equal. apply Set_delete_absent, Set_delete_not_elem.
  - intros H. f_equal. by apply Set_delete_absent.
  - apply Set_delete_not_elem.
  - intros Hne. unfold Set_delete. rewrite list_elem_of_filter. tauto.
Qed.

Lemma registry_add_delete_witness :
  activeSockets_delete 9%nat sample_world = sample_world
  ∧ (1%nat ∈ activeSockets (activeSockets_delete 2%nat sample_world)
     ↔ 1%nat ∈ activeSockets sample_world).
Proof.
  destruct (registry_add_delete 9%nat 9%nat sample_world)
    as (_ & _ & Habsent & _).
  destruct (registry_add_delete 2%nat 1%nat sample_world)
    as (_ & _ & _ & _ & Hother).
  split.
  - apply Habsent. cbn. intros H.
    repeat (apply elem_of_cons in H as [H|H]; [discriminate|]).
    by apply elem_of_nil in H.
  - apply Hother. discriminate.
Defined.

Lemma emitted_World (w : world) (reg : list nat)
    (m : gmap jsstring RateRecord) (rs : nat → ReadyState)
    (evs : list event) :
  emitted w (World reg m rs (trace w ++ evs)) = evs.
Proof. by apply emitted_app. Qed.

Lemma sends_to_app (ws : nat) (l1 l2 : list event) :
  sends_to ws (l1 ++ l2) = sends_to ws l1 ++ sends_to ws l2.
Proof. unfold sends_to. apply omap_app. Qed.

Lemma recipients_hit (w : world) (ws : nat) :
  NoDup (activeSockets w) → ws ∈ activeSockets w → readyState w ws = OPEN →
  List.filter (λ ws', bool_decide (ws' = ws))
              (List.filter (is_open w) (activeSockets w))
  = [ws].
Proof.
  intros Hnd Hin Hopen. apply filter_eq_NoDup.
  - apply NoDup_ListNoDup, List.NoDup_filter, NoDup_ListNoDup, Hnd.
  - apply list_elem_of_In, filter_In. split; [by apply list_elem_of_In|].
    unfold is_open. by rewrite Hopen.
Qed.

Lemma recipients_miss (w : world) (ws : nat) :
  ws ∉ activeSockets w ∨ readyState w ws ≠ OPEN →
  List.filter (λ ws', bool_decide (ws' = ws))
              (List.filter (is_open w) (activeSockets w))
  = [].
Proof.
  intros Hmiss.
  destruct (List.filter _ (List.filter _ _)) as [|x l] eqn:Hf; [done|].
  assert (In x (x :: l)) as Hx by (by left). rewrite <- Hf in Hx.
  apply filter_In in Hx as [Hx ->%bool_decide_eq_true].
  apply filter_In in Hx as [Hin Hopen].
  destruct Hmiss as [Hn|Hn].
  - by apply list_elem_of_In in Hin.
  - unfold is_open in Hopen. by destruct (readyState w ws).
Qed.

Lemma for_of_onChange (JSON_stringify : value → jsstring)
    (changes : list value) (w : world) :
  for_of changes (onChange JSON_stringify) w
  = (tt, World (activeSockets w) (ipConnections w) (readyState w)
           (trace w ++ concat (map (λ c,
              Stringify (db_change c)
                :: map (λ ws, Send ws (JSON_stringify (db_change c)))
                       (List.filter (is_open w) (activeSockets w)))
              changes))).
Proof.
  revert w. induction changes as [|c cs IH]; intros w.
  - destruct w. cbn. by rewrite app_nil_r.
  - cbn [for_of]. unfold mbind at 1, M_bind at 1. unfold onChange at 1.
    rewrite broadcast_trace, IH. cbn [activeSockets ipConnections readyState
                                        trace map concat].
    unfold is_open. cbn [readyState]. by rewrite <- app_assoc.
Qed.

(** X12.  Every change event reaches every open socket of the registry
    once, wrapped as [{ type: 'db_change', data }], and in the order the
    events arrived; a socket that is not registered, or not open, is sent
    nothing. *)
Theorem onChange_ordered_delivery (JSON_stringify : value → jsstring)
    (changes : list value) (w : world) (ws : nat) :
  let w' := snd (for_of changes (onChange JSON_stringify) w) in
  (NoDup (activeSockets w) → ws ∈ activeSockets w →
   readyState w ws = OPEN →
   sends_to ws (emitted w w')
   = map (λ c, JSON_stringify (db_change c)) changes)
  ∧ (ws ∉ activeSockets w ∨ readyState w ws ≠ OPEN →
     sends_to ws (emitted w w') = []).
Proof.
  cbn zeta. rewrite for_of_onChange. cbn [snd]. rewrite emitted_World.
  split.
  - intros Hnd Hin Hopen. induction changes as [|c cs IH]; [done|].
    cbn [map concat]. rewrite sends_to_app, IH.
    rewrite sends_to_stringify, sends_to_map, recipients_hit by done. done.
  - intros Hmiss. induction changes as [|c cs IH]; [done|].
    cbn [map concat]. rewrite sends_to_app, IH.
    by rewrite sends_to_stringify, sends_to_map, recipients_miss.
Qed.

Lemma onChange_ordered_delivery_witness :
  let w' := snd (for_of [VNull; VBool true]
                   (onChange (λ v, match v with
                                   | VObject [_; (_, VNull)] => str "n"
                                   | _ => str "t"
                                   end)) sample_world) in
  sends_to 3%nat (emitted sample_world w') = [str "n"; str "t"]
  ∧ sends_to 2%nat (emitted sample_world w') = [].
Proof.
  intros w'.
  destruct (onChange_ordered_delivery
              (λ v, match v with
                    | VObject [_; (_, VNull)] => str "n"
                    | _ => str "t"
                    end)
              [VNull; VBool true] sample_world 3%nat) as [Hopen _].
  destruct (onChange_ordered_delivery
              (λ v, match v with
                    | VObject [_; (_, VNull)] => str "n"
                    | _ => str "t"
                    end)
              [VNull; VBool true] sample_world 2%nat) as [_ Hclosing].
  split.
  - apply Hopen.
    + cbn. repeat (apply NoDup_cons; split;
        [intros H; repeat (apply elem_of_cons in H as [H|H]; [discriminate|]);
           by apply elem_of_nil in H|]).
      apply NoDup_nil_2.
    + cbn. right. right. left.
    + reflexivity.
  - apply Hclosing. right. discriminate.
Defined.

Lemma onUpgrade_upgraded_world (TOKEN : option jsstring) (now1 now2 : Z)
    (ws : nat) (req : request) (w w1 : world) :
  onUpgrade TOKEN now1 now2 ws req w = (Upgraded, w1) →
  handshake req = true
  ∧ activeSockets w1 = Set_add (activeSockets w) ws
  ∧ readyState w1 = readyState w.
Proof.
  unfold onUpgrade.
  destruct (bool_decide _); cbn [negb]; [|discriminate].
  destruct (checkRateLimit _ _ _) as [ok m].
  destruct ok; cbn [negb]; [|discriminate].
  destruct (validateToken _ _ _ _) as [[|]|]; try discriminate.
  destruct (handshake req); [|discriminate].
  by intros [= <-].
Qed.

(** X13.  From admission to closure: a socket that the listener has just
    upgraded (the [wss.handleUpgrade] callback ran: a request whose
    handshake is aborted never has this outcome), if open, is sent the
    next broadcast exactly once; after its ['close'] listener has run, a
    broadcast sends it nothing. *)
Theorem admitted_then_closed (TOKEN : option jsstring) (now1 now2 : Z)
    (ws : nat) (req : request) (w w1 : world)
    (JSON_stringify : value → jsstring) (data : value) :
  onUpgrade TOKEN now1 now2 ws req w = (Upgraded, w1) →
  NoDup (activeSockets w) → readyState w ws = OPEN →
  handshake req = true
  ∧ sends_to ws (emitted w1 (snd (broadcast JSON_stringify data w1)))
    = [JSON_stringify data]
  ∧ (let w2 := activeSockets_delete ws w1 in
     sends_to ws (emitted w2 (snd (broadcast JSON_stringify data w2))) = []).
Proof.
  intros Hup Hnd Hopen.
  apply onUpgrade_upgraded_world in Hup as (Hh & Hreg & Hrs).
  split; [done|]. split.
  - apply broadcast_once.
    + rewrite Hreg. by apply Set_add_NoDup.
    + rewrite Hreg. apply Set_add_elem.
    + by rewrite Hrs.
  - cbn zeta. rewrite broadcast_trace. cbn [snd]. rewrite emitted_World.
    rewrite sends_to_stringify, sends_to_map, recipients_miss; [done|].
    left. apply Set_delete_not_elem.
Qed.

Lemma admitted_then_closed_witness :
  let w1 := snd (onUpgrade (Some sample_secret) 5 1700000000000 7%nat
                   (credential_request sample_secret sample_time ∅ None)
                   empty_world) in
  sends_to 7%nat (emitted w1 (snd (broadcast (λ _, str "m") VNull w1)))
  = [str "m"].
Proof.
  intros w1.
  refine (proj1 (proj2 (admitted_then_closed (Some sample_secret) 5
                   1700000000000 7%nat
                   (credential_request sample_secret sample_time ∅ None)
                   empty_world w1 (λ _, str "m") VNull _ _ _))).
  - by vm_compute.
  - apply NoDup_nil_2.
  - reflexivity.
Defined.

(** ** Diff engine: what it looks at, what it reports *)

Lemma keys_or_empty_Some (v : value) :
  keys_or_empty (Some v) = map fst (own_props v).
Proof.
  cbn. destruct (falsy v) eqn:Hf; [|done].
  destruct v as [| b | x | s | l | props | f | p]; try done.
  by destruct s.
Qed.

Lemma scalar_no_keys (o : option value) :
  is_scalar o = true → keys_or_empty o = [].
Proof.
  destruct o as [[| b | x | s | l | props | f | p]|]; try discriminate;
    intros _; try done.
  - cbn. by destruct b.
  - cbn. by destruct x.
Qed.

(** [undefined?.[key]] and [null?.[key]] are [undefined], whatever the
    engine. *)
Lemma get_undefined (E : engine) (o : option value) (key : jsstring) :
  o = None ∨ o = Some VNull → get E o key = None.
Proof. by intros [-> | ->]. Qed.

(** X15.  Two values without keys are never compared: for [undefined],
    [null], booleans and numbers on both sides the diff is empty, also when
    the two differ. *)
Theorem generateDiff_scalars (E : engine) (obj1 obj2 : option value)
    (path : jsstring) :
  is_scalar obj1 = true → is_scalar obj2 = true →
  generateDiff E obj1 obj2 path = Some [].
Proof.
  intros H1%scalar_no_keys H2%scalar_no_keys.
  unfold generateDiff. cbn [generateDiff_fuel]. by rewrite H1, H2.
Qed.

Lemma generateDiff_scalars_witness :
  generateDiff node (Some (VBool true))
               (Some (VNumber (S754_finite false 4503599627370496 (-52))))
               []
  = Some [].
Proof. by apply generateDiff_scalars. Defined.

Lemma Set_add_fresh (acc l : list jsstring) :
  NoDup (acc ++ l) → foldl Set_add acc l = acc ++ l.
Proof.
  revert acc. induction l as [|x l IH]; intros acc Hnd; cbn.
  - by rewrite app_nil_r.
  - assert (x ∉ acc) as Hx.
    { apply NoDup_app in Hnd as (_ & Hdis & _). intros Hin.
      apply (Hdis x Hin). by left. }
    unfold Set_add at 2. rewrite bool_decide_eq_false_2 by done.
    rewrite IH; rewrite <- app_assoc; [done|]. exact Hnd.
Qed.

Lemma Set_new_NoDup (l : list jsstring) : NoDup l → Set_new l = l.
Proof. intros H. unfold Set_new. by rewrite Set_add_fresh. Qed.

Lemma lookup_prop_NoDup (props : list (jsstring * value)) (k : jsstring)
    (v : value) :
  NoDup (map fst props) → (k, v) ∈ props → lookup_prop k props = Some v.
Proof.
  induction props as [|[k0 v0] props IH]; [by intros _ ?%elem_of_nil|].
  cbn [map fst lookup_prop]. intros [Hk0 Hnd]%NoDup_cons.
  intros [[= -> ->]|Hin]%elem_of_cons.
  - by rewrite bool_decide_eq_true_2.
  - rewrite bool_decide_eq_false_2; [by apply IH|].
    intros ->. apply Hk0. apply list_elem_of_fmap. by exists (k, v).
Qed.

Lemma strict_equal_undefined (v : value) :
  strict_equal None (Some v) = false ∧ strict_equal (Some v) None = false.
Proof. by destruct v. Qed.

(** X16.  Against [undefined] or [null] every top-level key of the other
    side is reported once, in key order, with its whole value: as [added]
    when the missing side is the old one, as [removed] when it is the new
    one.  Nested values are not descended into. *)
Theorem generateDiff_one_sided (E : engine) (o : option value) (b : value)
    (path : jsstring) :
  o = None ∨ o = Some VNull → NoDup (Object_keys b) →
  generateDiff E o (Some b) path
  = Some (map (λ p, added (path_join path (fst p)) (snd p)) (own_props b))
  ∧ generateDiff E (Some b) o path
    = Some (map (λ p, removed (path_join path (fst p)) (snd p))
                (own_props b)).
Proof.
  intros Ho Hnd.
  assert (keys_or_empty o = []) as Hk by (by destruct Ho as [-> | ->]).
  pose proof (get_undefined E o) as Hg. specialize (λ key, Hg key Ho).
  pose proof (lookup_prop_NoDup (own_props b)) as Hlook.
  unfold Object_keys in Hnd. specialize (λ k v, Hlook k v Hnd).
  unfold generateDiff. cbn [generateDiff_fuel].
  rewrite Hk, keys_or_empty_Some, app_nil_l, app_nil_r.
  rewrite Set_new_NoDup by done.
  assert (∀ (mk : jsstring → value → DiffEntry) step,
    (∀ changes k v, lookup_prop k (own_props b) = Some v →
       step (Some changes) k = Some (changes ++ [mk (path_join path k) v])) →
    ∀ ps acc, (∀ k v, (k, v) ∈ ps → lookup_prop k (own_props b) = Some v) →
      foldl step (Some acc) (map fst ps)
      = Some (acc ++ map (λ p, mk (path_join path (fst p)) (snd p)) ps))
    as Hfold.
  { intros mk step Hstep ps.
    induction ps as [|[k v] ps IH]; intros acc Hps; cbn [map foldl fst snd].
    - by rewrite app_nil_r.
    - rewrite (Hstep acc k v) by (apply Hps; by left).
      rewrite IH by (intros k' v' Hin; apply Hps; by right).
      by rewrite <- app_assoc. }
  split.
  - apply (Hfold added); [|done]. intros changes k v Hkv.
    rewrite Hg, (get_own E b k v Hkv). cbn [is_object andb].
    by rewrite (proj1 (strict_equal_undefined v)).
  - apply (Hfold removed); [|done]. intros changes k v Hkv.
    rewrite Hg, (get_own E b k v Hkv).
    rewrite andb_false_r.
    by rewrite (proj2 (strict_equal_undefined v)).
Qed.

Lemma generateDiff_one_sided_witness :
  generateDiff node None (Some sample_value) (str "doc")
  = Some [added (str "doc.x")
                (VObject [(str "y", VNumber (S754_zero false))]);
          added (str "doc.z")
                (VArray [VString (str "s"); VNull; VBool true;
                         VNumber (S754_infinity false)])].
Proof.
  refine (proj1 (generateDiff_one_sided node None sample_value (str "doc")
                   _ _)).
  - by left.
  - cbn. apply NoDup_cons. split.
    + intros H. apply elem_of_cons in H as [H|H]; [discriminate|].
      by apply elem_of_nil in H.
    + apply NoDup_singleton.
Defined.

Lemma generateDiff_fuel_same_props (E : engine) (fuel : nat) (a b : value)
    (path : jsstring) :
  own_props a = own_props b → json_like a = true →
  (depth a ≤ S fuel)%nat →
  generateDiff_fuel E (S fuel) (Some a) (Some b) path = Some [].
Proof.
  intros Hprops Hjson Hdepth.
  cbn [generateDiff_fuel]. apply foldl_fixed. intros key Hkey.
  apply Set_new_elem, elem_of_app in Hkey.
  assert (key ∈ map fst (own_props a)) as Hown.
  { destruct Hkey as [Hkey|Hkey]; apply keys_or_empty_own in Hkey;
      [done|by rewrite Hprops]. }
  destruct (lookup_prop_is_Some _ _ Hown) as [v Hv].
  rewrite (get_own E a key v Hv).
  rewrite (get_own E b key v) by (by rewrite <- Hprops).
  pose proof (own_json_like a key v Hjson Hv) as Hjv.
  destruct (is_object (Some v)) eqn:Hobj; cbn [andb].
  - pose proof (own_depth a key v Hv Hobj) as Hlt.
    pose proof (json_like_object_depth v Hjv Hobj) as Hpos.
    rewrite generateDiff_fuel_same by (done || lia).
    cbn. by rewrite spread_nil.
  - rewrite strict_equal_refl; [done|done|]. by intros u [= <-].
Qed.

(** X17.  Two JSON-like values with the same own enumerable keys and the
    same values under them diff as empty, whatever kind of value each is
    (an array and the object keyed by its indices, [[]] and [{}]), when
    they are nested no deeper than the call stack holds calls: every key
    the diff looks up is then an own key of both. *)
Theorem generateDiff_same_props (E : engine) (a b : value)
    (path : jsstring) :
  own_props a = own_props b → json_like a = true →
  (depth a ≤ S (stack E))%nat →
  generateDiff E (Some a) (Some b) path = Some [].
Proof. apply generateDiff_fuel_same_props. Qed.

Lemma generateDiff_same_props_witness :
  generateDiff node (Some (VArray [VNull; VString (str "b")]))
               (Some (VObject [(str "0", VNull);
                               (str "1", VString (str "b"))]))
               []
  = Some []
  ∧ generateDiff node (Some (VArray [])) (Some (VObject [])) [] = Some [].
Proof.
  split; apply generateDiff_same_props; try reflexivity; cbn; lia.
Defined.

Lemma foldl_None {A B : Type} (f : option A → B → option A) (l : list B) :
  (∀ x, f None x = None) → foldl f None l = None.
Proof. intros H. induction l as [|x l IH]; cbn; [done|]. by rewrite H. Qed.

Lemma foldl_Some_inv {A B : Type} (f : option A → B → option A)
    (Q : A → Prop) (l : list B) (c d : A) :
  (∀ x, f None x = None) →
  (∀ c x c', Q c → f (Some c) x = Some c' → Q c') →
  Q c → foldl f (Some c) l = Some d → Q d.
Proof.
  intros HN Hstep. revert c. induction l as [|x l IH]; intros c Hc; cbn.
  - by intros [= <-].
  - destruct (f (Some c) x) as [c'|] eqn:Hf.
    + apply IH. by eapply Hstep.
    + by rewrite foldl_None.
Qed.

(** What a spread call passed on is what it was given, and it fitted. *)
Lemma bind_spread_Some (E : engine) (frames : nat)
    (o : option (list DiffEntry)) (sub : list DiffEntry) :
  o ≫= spread E frames = Some sub →
  o = Some sub ∧ (length sub ≤ spread_limit E frames)%nat.
Proof.
  destruct o as [sub0|]; [|discriminate]. cbn. unfold spread.
  case_bool_decide; [|discriminate]. by intros [= <-].
Qed.

(** What every entry of a diff made under [path] satisfies. *)
Lemma generateDiff_fuel_entries (E : engine) (fuel : nat)
    (obj1 obj2 : option value) (path : jsstring) (d : list DiffEntry) :
  generateDiff_fuel E fuel obj1 obj2 path = Some d →
  Forall (λ e,
    (path ≠ [] → ∃ rest, entry_path e = path ++ str "." ++ rest)
    ∧ match e with
      | changed _ v1 v2 =>
          strict_equal (Some v1) (Some v2) = false
          ∧ is_object (Some v1) && is_object (Some v2) = false
      | _ => True
      end) d.
Proof.
  revert obj1 obj2 path d.
  induction fuel as [|fuel IH]; intros obj1 obj2 path d; [discriminate|].
  cbn [generateDiff_fuel]. apply foldl_Some_inv; [done| |constructor].
  intros changes key d' Hch.
  assert (path ≠ [] →
          ∀ rest, (if truthy path then path ++ str "." ++ key else key)
                  ++ rest
                  = path ++ str "." ++ key ++ rest) as Hjoin.
  { intros Hp%truthy_nonempty rest. rewrite Hp.
    by rewrite <- !app_assoc. }
  destruct (is_object (get E obj1 key) && is_object (get E obj2 key))
    eqn:Hobj.
  - destruct (generateDiff_fuel E fuel _ _ _ ≫= spread E fuel)
      as [sub|] eqn:Hsub; [|discriminate].
    apply bind_spread_Some in Hsub as [Hsub _].
    intros [= <-]. apply Forall_app. split; [done|].
    apply IH in Hsub. eapply Forall_impl; [exact Hsub|].
    intros e [Hpre Hval]. split; [|done]. intros Hp.
    destruct Hpre as [rest Hrest].
    { apply truthy_nonempty in Hp. rewrite Hp. by destruct path. }
    exists (key ++ str "." ++ rest). rewrite Hrest. by apply Hjoin.
  - destruct (strict_equal (get E obj1 key) (get E obj2 key)) eqn:Heq;
      cbn [negb]; [by intros [= <-]|].
    assert (∀ e, entry_path e
                 = (if truthy path then path ++ str "." ++ key else key) →
              path ≠ [] → ∃ rest, entry_path e = path ++ str "." ++ rest)
      as Hpath.
    { intros e -> Hp%truthy_nonempty. exists key. by rewrite Hp. }
    destruct (get E obj1 key) as [v1|], (get E obj2 key) as [v2|];
      intros [= <-]; try done;
      (apply Forall_app; split; [done|]);
      apply Forall_singleton; (split; [by apply Hpath|done]).
Qed.

(** X18.  Every entry of [generateDiff(a, b, path)] with a non-empty [path]
    has a path that starts with [path] followed by a dot: nested entries
    carry the keys that lead to them. *)
Theorem generateDiff_paths (E : engine) (obj1 obj2 : option value)
    (path : jsstring) (d : list DiffEntry) :
  path ≠ [] →
  generateDiff E obj1 obj2 path = Some d →
  Forall (λ e, ∃ rest, entry_path e = path ++ str "." ++ rest) d.
Proof.
  intros Hp Hd. apply generateDiff_fuel_entries in Hd.
  eapply Forall_impl; [exact Hd|]. intros e [Hpre _]. by apply Hpre.
Qed.

Lemma generateDiff_paths_witness :
  Forall (λ e, ∃ rest, entry_path e = str "doc" ++ str "." ++ rest)
    [added (str "doc.x") (VObject [(str "y", VNumber (S754_zero false))]);
     added (str "doc.z")
           (VArray [VString (str "s"); VNull; VBool true;
                    VNumber (S754_infinity false)])].
Proof.
  apply (generateDiff_paths node None (Some sample_value) (str "doc")).
  - discriminate.
  - by vm_compute.
Defined.

(** X19.  A [changed] entry always reports two values that are not [===],
    and never two objects or arrays: when both sides hold an object or an
    array under a key, the diff goes inside instead of reporting the
    pair. *)
Theorem generateDiff_changed_entries (E : engine)
    (obj1 obj2 : option value) (path : jsstring) (d : list DiffEntry)
    (p : jsstring) (v1 v2 : value) :
  generateDiff E obj1 obj2 path = Some d →
  changed p v1 v2 ∈ d →
  strict_equal (Some v1) (Some v2) = false
  ∧ (is_object (Some v1) = false ∨ is_object (Some v2) = false).
Proof.
  intros Hd Hin. apply generateDiff_fuel_entries in Hd.
  rewrite Forall_forall in Hd. destruct (Hd _ Hin) as [_ [Hne Hobj]].
  split; [done|]. by apply andb_false_iff.
Qed.

Lemma generateDiff_changed_entries_witness :
  strict_equal (Some (VArray [VNull])) (Some (VString (str "s"))) = false
  ∧ (is_object (Some (VArray [VNull])) = false
     ∨ is_object (Some (VString (str "s"))) = false).
Proof.
  apply (generateDiff_changed_entries node
           (Some (VObject [(str "k", VArray [VNull])]))
           (Some (VObject [(str "k", VString (str "s"))])) []
           [changed (str "k") (VArray [VNull]) (VString (str "s"))]
           (str "k")).
  - by vm_compute.
  - left.
Defined.

(** *** Swapping the two sides *)

Lemma generateDiff_fuel_unfold (E : engine) (fuel : nat)
    (obj1 obj2 : option value) (path : jsstring) :
  generateDiff_fuel E (S fuel) obj1 obj2 path
  = (λ ds, concat ds)
    <$> mapM (diff_key E (λ v1 v2 p, generateDiff_fuel E fuel v1 v2 p
                                      ≫= spread E fuel)
                       obj1 obj2 path)
             (Set_new (keys_or_empty obj1 ++ keys_or_empty obj2)).
Proof.
  cbn [generateDiff_fuel].
  generalize (Set_new (keys_or_empty obj1 ++ keys_or_empty obj2)).
  intros keys.
  assert (∀ acc,
    foldl (λ acc key,
      match acc with
      | None => None
      | Some changes =>
          let fullPath :=
            if truthy path then path ++ str "." ++ key else key in
          let val1 := get E obj1 key in
          let val2 := get E obj2 key in
          if is_object val1 && is_object val2 then
            match generateDiff_fuel E fuel val1 val2 fullPath
                  ≫= spread E fuel with
            | None => None
            | Some sub => Some (changes ++ sub)
            end
          else if negb (strict_equal val1 val2) then
            match val1, val2 with
            | None, Some v2 => Some (changes ++ [added fullPath v2])
            | Some v1, None => Some (changes ++ [removed fullPath v1])
            | Some v1, Some v2 => Some (changes ++ [changed fullPath v1 v2])
            | None, None => Some changes
            end
          else Some changes
      end) (Some acc) keys
    = (λ ds, acc ++ concat ds)
      <$> mapM (diff_key E (λ v1 v2 p, generateDiff_fuel E fuel v1 v2 p
                                        ≫= spread E fuel)
                         obj1 obj2 path) keys)
    as H; [|apply H].
  induction keys as [|key keys IH]; intros acc.
  - cbn. by rewrite app_nil_r.
  - cbn [foldl mapM]. unfold diff_key at 2, path_join. cbn zeta.
    destruct (is_object (get E obj1 key) && is_object (get E obj2 key)).
    + destruct (generateDiff_fuel E fuel _ _ _ ≫= spread E fuel)
        as [sub|]; cbn.
      * rewrite IH. destruct (mapM _ keys); cbn; [|done].
        by rewrite <- app_assoc.
      * by rewrite foldl_None.
    + destruct (negb _).
      * destruct (get E obj1 key), (get E obj2 key); cbn; rewrite IH;
          destruct (mapM _ keys); cbn; try done;
          by rewrite <- ?app_assoc.
      * cbn. rewrite IH. by destruct (mapM _ keys).
Qed.

Lemma SFeqb_sym (x y : spec_float) : SFeqb x y = SFeqb y x.
Proof.
  unfold SFeqb, SFcompare.
  destruct x as [s|s| |s m e], y as [s'|s'| |s' m' e']; try done;
    try (by destruct s, s').
  rewrite (Z.compare_antisym e e').
  replace (Pos.compare_cont Eq m' m)
    with (CompOpp (Pos.compare_cont Eq m m'))
    by apply (Pos.compare_cont_antisym m m' Eq).
  by destruct s, s', (e ?= e')%Z, (Pos.compare_cont Eq m m').
Qed.

Lemma strict_equal_sym (a b : option value) :
  strict_equal a b = strict_equal b a.
Proof.
  destruct a as [[| x | x | s | l | ps | f | p]|],
           b as [[| y | y | t | l' | qs | g | q]|];
    try done; cbn; try apply SFeqb_sym;
    apply bool_decide_ext; split; congruence.
Qed.

Lemma Set_add_fold_NoDup (acc l : list jsstring) :
  NoDup acc → NoDup (foldl Set_add acc l).
Proof.
  revert acc. induction l as [|y l IH]; intros acc Hacc; cbn; [done|].
  apply IH. unfold Set_add. case_bool_decide as Hy; [done|].
  apply NoDup_app. split; [done|]. split; [|apply NoDup_singleton].
  by intros x Hx ->%list_elem_of_singleton.
Qed.

Lemma Set_new_swap (k1 k2 : list jsstring) :
  Set_new (k2 ++ k1) ≡ₚ Set_new (k1 ++ k2).
Proof.
  unfold Set_new.
  apply NoDup_Permutation; try (apply Set_add_fold_NoDup, NoDup_nil_2).
  intros x. rewrite !Set_add_fold_elem, !elem_of_app. tauto.
Qed.

Lemma concat_bind {A B : Type} (g : A → list B) (l : list A) :
  concat (map g l) = l ≫= g.
Proof. induction l as [|x l IH]; cbn; [done|]. by rewrite IH. Qed.

Lemma mapM_default {A B : Type} (f : A → option (list B)) (l : list A)
    (ds : list (list B)) :
  mapM f l = Some ds → ds = map (λ x, default [] (f x)) l.
Proof.
  intros H%mapM_Some. induction H as [|x y l k Hx _ IH]; [done|].
  cbn. by rewrite Hx, IH.
Qed.

Lemma generateDiff_fuel_mirror (E : engine) (fuel : nat)
    (obj1 obj2 : option value) (path : jsstring) (d d' : list DiffEntry) :
  generateDiff_fuel E fuel obj1 obj2 path = Some d →
  generateDiff_fuel E fuel obj2 obj1 path = Some d' →
  d' ≡ₚ mirror <$> d.
Proof.
  revert obj1 obj2 path d d'.
  induction fuel as [|fuel IH]; intros obj1 obj2 path d d'; [discriminate|].
  rewrite !generateDiff_fuel_unfold.
  set (rec := λ v1 v2 p, generateDiff_fuel E fuel v1 v2 p ≫= spread E fuel).
  set (keys := Set_new (keys_or_empty obj1 ++ keys_or_empty obj2)).
  set (keys' := Set_new (keys_or_empty obj2 ++ keys_or_empty obj1)).
  set (f := diff_key E rec obj1 obj2 path).
  set (f' := diff_key E rec obj2 obj1 path).
  destruct (mapM f keys) as [ds|] eqn:Hds; [|discriminate].
  destruct (mapM f' keys') as [ds'|] eqn:Hds'; [|discriminate].
  cbn. intros [= <-] [= <-].
  assert (keys' ≡ₚ keys) as Hperm by apply Set_new_swap.
  assert (∀ key, key ∈ keys →
            default [] (f' key) ≡ₚ mirror <$> default [] (f key)) as Hkey.
  { intros key Hin.
    assert (is_Some (f key)) as [es Hes].
    { apply mk_is_Some, mapM_is_Some in Hds.
      rewrite Forall_forall in Hds. by apply Hds. }
    assert (is_Some (f' key)) as [es' Hes'].
    { apply mk_is_Some, mapM_is_Some in Hds'.
      rewrite Forall_forall in Hds'. apply Hds'. by rewrite Hperm. }
    rewrite Hes, Hes'. cbn [default].
    unfold f, f', diff_key in Hes, Hes'. cbn zeta in Hes, Hes'.
    rewrite (andb_comm (is_object (get E obj2 key))) in Hes'.
    rewrite (strict_equal_sym (get E obj2 key)) in Hes'.
    destruct (is_object (get E obj1 key) && is_object (get E obj2 key)).
    - apply bind_spread_Some in Hes as [Hes _].
      apply bind_spread_Some in Hes' as [Hes' _]. by eapply IH.
    - destruct (negb _).
      + destruct (get E obj1 key), (get E obj2 key);
          injection Hes as <-; injection Hes' as <-; done.
      + injection Hes as <-. injection Hes' as <-. done. }
  rewrite (mapM_default _ _ _ Hds), (mapM_default _ _ _ Hds').
  rewrite !concat_bind, Hperm. clear Hds Hds' Hperm.
  induction keys as [|key keys IHk]; [done|].
  cbn [mbind list_bind]. rewrite fmap_app.
  apply Permutation_app; [apply Hkey; by left|].
  apply IHk. intros k Hk. apply Hkey. by right.
Qed.

(** X20.  Swapping the old and the new value mirrors the diff: the same
    entries come out, up to their order, with [added] and [removed]
    exchanged and [from] and [to] exchanged. *)
Theorem generateDiff_mirror (E : engine) (obj1 obj2 : option value)
    (path : jsstring) (d d' : list DiffEntry) :
  generateDiff E obj1 obj2 path = Some d →
  generateDiff E obj2 obj1 path = Some d' →
  d' ≡ₚ mirror <$> d.
Proof. apply generateDiff_fuel_mirror. Qed.

Lemma generateDiff_mirror_witness :
  [removed (str "b") VNull; added (str "a") (VBool true)]
  ≡ₚ mirror <$> [removed (str "a") (VBool true); added (str "b") VNull].
Proof.
  apply (generateDiff_mirror node (Some (VObject [(str "a", VBool true)]))
           (Some (VObject [(str "b", VNull)])) []).
  - by vm_compute.
  - by vm_compute.
Defined.

(** *** When it returns *)

Section Returns.
Local Open Scope nat_scope.

Lemma sum_list_with_add {A : Type} (f g : A → nat) (l : list A) :
  sum_list_with (λ x, f x + g x) l = sum_list_with f l + sum_list_with g l.
Proof. induction l as [|x l IH]; cbn; lia. Qed.

Lemma sum_if_absent (k : jsstring) (a : nat) (g : jsstring → nat)
    (keys : list jsstring) :
  k ∉ keys →
  sum_list_with (λ key, if bool_decide (k = key) then a else g key) keys
  = sum_list_with g keys.
Proof.
  induction keys as [|key keys IH]; [done|].
  intros [Hk Hks]%not_elem_of_cons. cbn.
  rewrite bool_decide_eq_false_2 by done. by rewrite IH.
Qed.

Lemma sum_if_once (k : jsstring) (a : nat) (g : jsstring → nat)
    (keys : list jsstring) :
  NoDup keys →
  sum_list_with (λ key, if bool_decide (k = key) then a else g key) keys
  ≤ a + sum_list_with g keys.
Proof.
  induction keys as [|key keys IH]; [cbn; lia|].
  intros [Hkey Hnd]%NoDup_cons. cbn. case_bool_decide as Hk.
  - subst key. rewrite sum_if_absent by done. lia.
  - specialize (IH Hnd). lia.
Qed.

(** Distinct keys weigh no more than the properties they name. *)
Lemma key_weight_sum (props : list (jsstring * value))
    (keys : list jsstring) :
  NoDup keys →
  sum_list_with (key_weight props) keys ≤ props_weight props.
Proof.
  intros Hnd. induction props as [|[k c] props IH].
  - induction keys as [|key keys IHk]; [done|].
    apply NoDup_cons in Hnd as [_ Hnd]. cbn. by apply IHk.
  - unfold key_weight. cbn [lookup_prop props_weight sum_list_with snd].
    etrans; [|apply Nat.add_le_mono_l, IH].
    etrans; [|apply (sum_if_once k (child_weight c)
                       (λ key, key_weight props key) keys Hnd)].
    apply Nat.eq_le_incl. clear. induction keys as [|key keys IHk]; [done|].
    cbn. rewrite IHk. by destruct (bool_decide (k = key)).
Qed.

Lemma key_weight_le (props : list (jsstring * value)) (key : jsstring) :
  key_weight props key ≤ props_weight props.
Proof.
  pose proof (key_weight_sum props [key]) as H. cbn in H.
  rewrite Nat.add_0_r in H. apply H, NoDup_singleton.
Qed.

Lemma props_weight_zip (ks : list jsstring) (vs : list value) :
  props_weight (zip ks vs) ≤ sum_list_with child_weight vs.
Proof.
  revert ks. induction vs as [|v vs IH]; intros [|k ks]; cbn; try lia.
  specialize (IH ks). unfold props_weight in IH. lia.
Qed.

Lemma props_weight_size (v : value) : props_weight (own_props v) ≤ size v.
Proof.
  destruct v as [| b | x | s | elems | props | f | p]; cbn [own_props size];
    try done.
  - etrans; [apply props_weight_zip|].
    induction s as [|c s IH]; cbn; [done|]. lia.
  - etrans; [apply props_weight_zip|].
    induction elems as [|x elems IH]; cbn [sum_list_with foldr]; [done|].
    unfold child_weight at 1. destruct (is_object (Some x)); lia.
  - induction props as [|[k x] props IH];
      cbn [props_weight sum_list_with foldr snd]; [done|].
    unfold props_weight in IH.
    unfold child_weight at 1. destruct (is_object (Some x)); lia.
Qed.

Lemma props_weight_opt (o : option value) :
  props_weight (props_opt o) ≤ size_opt o.
Proof. destruct o as [v|]; [apply props_weight_size|done]. Qed.

(** A value without enumerable properties of its own is small. *)
Lemma no_props_small (u : value) :
  own_props u = [] → size u = 0 ∧ depth u ≤ 1.
Proof.
  destruct u as [| b | x | s | elems | props | f | p]; cbn [own_props];
    intros H; try (by cbn; split; lia).
  - destruct s; [cbn; lia|by cbn in H].
  - destruct elems; [cbn; lia|by cbn in H].
  - subst props. cbn. lia.
Qed.

Lemma object_depth_pos (v : value) :
  is_object (Some v) = true → 0 < depth v.
Proof. destruct v; try discriminate; cbn; lia. Qed.

Lemma keys_weight (o : option value) (key : jsstring) :
  key ∈ keys_or_empty o → 0 < key_weight (props_opt o) key.
Proof.
  destruct o as [v|]; [|by intros ?%elem_of_nil].
  intros Hkey%keys_or_empty_own.
  destruct (lookup_prop_is_Some _ _ Hkey) as [c Hc].
  unfold key_weight, props_opt. rewrite Hc. unfold child_weight. lia.
Qed.

(** What [obj?.[key]] yields, when it is an object: an own property,
    nested deeper and counted in the weight of the key, or a built-in
    one. *)
Lemma get_bounds (E : engine) (o : option value) (key : jsstring)
    (c : value) :
  (∀ v key u, builtin E v key = Some u → own_props u = []) →
  get E o key = Some c → is_object (Some c) = true →
  size c ≤ key_weight (props_opt o) key
  ∧ ((depth c < depth_opt o ∧ 0 < key_weight (props_opt o) key)
     ∨ (depth c ≤ 1 ∧ key_weight (props_opt o) key = 0)).
Proof.
  intros Hleaf Hget Hobj.
  destruct o as [v|]; [|discriminate].
  unfold key_weight, props_opt. cbn [depth_opt].
  destruct (lookup_prop key (own_props v)) as [c'|] eqn:Hown.
  - rewrite (get_own E v key c' Hown) in Hget. injection Hget as ->.
    unfold child_weight. rewrite Hobj. split; [lia|]. left.
    split; [by eapply own_depth|lia].
  - assert (builtin E v key = Some c) as Hb.
    { destruct v; cbn [get] in Hget; try done; by rewrite Hown in Hget. }
    apply Hleaf, no_props_small in Hb as [-> Hd]. split; [lia|]. by right.
Qed.

Lemma mapM_bound {A B : Type} (g : A → option (list B)) (w : A → nat)
    (l : list A) :
  (∀ x, x ∈ l → ∃ es, g x = Some es ∧ length es ≤ w x) →
  ∃ ds, mapM g l = Some ds ∧ length (concat ds) ≤ sum_list_with w l.
Proof.
  induction l as [|x l IH]; intros Hl.
  - by exists [].
  - destruct (Hl x) as (es & Hes & Hlen); [by left|].
    destruct IH as (ds & Hds & Hsum); [intros y Hy; apply Hl; by right|].
    exists (es :: ds). cbn. rewrite Hes, Hds. split; [done|].
    rewrite length_app. lia.
Qed.

Lemma generateDiff_fuel_returns (E : engine) (fuel : nat)
    (obj1 obj2 : option value) (path : jsstring) :
  (∀ v key u, builtin E v key = Some u → own_props u = []) →
  0 < fuel → depth_opt obj1 ≤ fuel → depth_opt obj2 ≤ fuel →
  (∀ frames, fuel - Nat.max (depth_opt obj1) (depth_opt obj2) < frames →
             size_opt obj1 + size_opt obj2 ≤ spread_limit E frames) →
  ∃ d, generateDiff_fuel E fuel obj1 obj2 path = Some d
       ∧ length d ≤ size_opt obj1 + size_opt obj2.
Proof.
  intros Hleaf. revert obj1 obj2 path.
  induction fuel as [|fuel IH]; intros obj1 obj2 path Hfuel Hd1 Hd2 Hsp;
    [lia|].
  rewrite generateDiff_fuel_unfold.
  set (rec := λ v1 v2 p, generateDiff_fuel E fuel v1 v2 p ≫= spread E fuel).
  set (keys := Set_new (keys_or_empty obj1 ++ keys_or_empty obj2)).
  assert (NoDup keys) as Hnd by apply Set_add_fold_NoDup, NoDup_nil_2.
  pose proof (props_weight_opt obj1) as Hw1.
  pose proof (props_weight_opt obj2) as Hw2.
  destruct (mapM_bound (diff_key E rec obj1 obj2 path)
              (λ key, key_weight (props_opt obj1) key
                      + key_weight (props_opt obj2) key) keys)
    as (ds & Hds & Hlen).
  { intros key Hkey.
    apply Set_new_elem, elem_of_app in Hkey.
    assert (0 < key_weight (props_opt obj1) key
                + key_weight (props_opt obj2) key) as Howned.
    { destruct Hkey as [Hk|Hk]; apply keys_weight in Hk; lia. }
    pose proof (key_weight_le (props_opt obj1) key) as Hk1.
    pose proof (key_weight_le (props_opt obj2) key) as Hk2.
    unfold diff_key. cbn zeta.
    destruct (is_object (get E obj1 key) && is_object (get E obj2 key))
      eqn:Hobj.
    - apply andb_true_iff in Hobj as [Ho1 Ho2].
      destruct (get E obj1 key) as [c1|] eqn:Hg1; [|discriminate].
      destruct (get E obj2 key) as [c2|] eqn:Hg2; [|discriminate].
      destruct (get_bounds E obj1 key c1 Hleaf Hg1 Ho1) as [Hs1 Hb1].
      destruct (get_bounds E obj2 key c2 Hleaf Hg2 Ho2) as [Hs2 Hb2].
      pose proof (object_depth_pos c1 Ho1) as Hp1.
      pose proof (object_depth_pos c2 Ho2) as Hp2.
      destruct (IH (Some c1) (Some c2) (path_join path key))
        as (sub & Hsub & Hsublen); cbn [depth_opt size_opt]; try lia.
      { intros frames Hfr. specialize (Hsp frames). lia. }
      cbn [size_opt] in Hsublen.
      exists sub. unfold rec. rewrite Hsub. cbn [mbind option_bind].
      unfold spread. rewrite bool_decide_eq_true_2; [split; [done|lia]|].
      specialize (Hsp fuel). lia.
    - destruct (negb _); [|exists []; split; [done|cbn; lia]].
      destruct (get E obj1 key), (get E obj2 key); eexists;
        (split; [done|cbn; lia]). }
  exists (concat ds). rewrite Hds. split; [done|].
  rewrite sum_list_with_add in Hlen.
  pose proof (key_weight_sum (props_opt obj1) keys Hnd).
  pose proof (key_weight_sum (props_opt obj2) keys Hnd).
  lia.
Qed.

(** X14.  [generateDiff] returns on values that fit the engine: when both
    are nested no deeper than the call stack holds calls of
    [generateDiff] (the listener's call and [stack E] nested ones), and
    together have no more properties than a spread call takes at the
    levels of the stack the recursion reaches, it returns a diff, of no
    more entries than they have properties.  (The engine's built-in
    properties are taken to have no enumerable properties of their own,
    as functions, prototypes and ["length"] have none.)  Deeper or larger
    values can end in a [RangeError]. *)
Theorem generateDiff_returns (E : engine) (obj1 obj2 : option value)
    (path : jsstring) :
  let deep := Nat.max (depth_opt obj1) (depth_opt obj2) in
  (∀ v key u, builtin E v key = Some u → own_props u = []) →
  deep ≤ S (stack E) →
  (∀ frames, S (stack E) - deep < frames →
             size_opt obj1 + size_opt obj2 ≤ spread_limit E frames) →
  ∃ d, generateDiff E obj1 obj2 path = Some d
       ∧ length d ≤ size_opt obj1 + size_opt obj2.
Proof.
  intros deep Hleaf Hd Hsp. apply generateDiff_fuel_returns; try done;
    unfold deep in Hd; lia.
Qed.

Lemma method_from_leaf (p key : jsstring) (u : value) :
  method_from p key = Some u → own_props u = [].
Proof.
  unfold method_from. repeat case_bool_decide; by intros [= <-].
Qed.

Lemma node_builtin_leaf (v : value) (key : jsstring) (u : value) :
  builtin node v key = Some u → own_props u = [].
Proof.
  cbn [builtin node]. unfold node_builtin. case_bool_decide.
  - destruct v; cbn [prototype_of]; try case_bool_decide;
      by intros [= <-].
  - destruct v; cbn [from_option prototype_of]; try discriminate;
      try case_bool_decide; try (by intros [= <-]);
      apply method_from_leaf.
Qed.

Lemma generateDiff_returns_witness :
  ∃ d, generateDiff node (Some sample_value)
                    (Some (VObject [(str "__proto__", sample_value)])) []
       = Some d
       ∧ length d ≤ 17.
Proof.
  apply (generateDiff_returns node (Some sample_value)
           (Some (VObject [(str "__proto__", sample_value)])) []).
  - apply node_builtin_leaf.
  - cbn. lia.
  - intros frames Hfr. cbn in Hfr |- *. lia.
Defined.
End Returns.

(** ** HTTP listener and renderers *)

Lemma body_concat (chunks : list jsstring) (acc : jsstring) :
  foldl (λ body chunk, body ++ chunk) acc chunks = acc ++ concat chunks.
Proof.
  revert acc. induction chunks as [|c cs IH]; intros acc; cbn.
  - by rewrite app_nil_r.
  - by rewrite IH, app_assoc.
Qed.

(** The answer to [POST /diff] is made of what the [try] block yields. *)
Lemma onRequest_diff (E : engine) (JSON_parse : jsstring → option value)
    (JSON_stringify String_of : value → option jsstring)
    (JSON_stringify_diff : list DiffEntry → option jsstring)
    (req : http_request) :
  method req = str "POST" → http_pathname req = Some (str "/diff") →
  onRequest E JSON_parse JSON_stringify String_of JSON_stringify_diff req
  = match diff_output E JSON_parse JSON_stringify String_of
            JSON_stringify_diff req with
    | Some output =>
        {| statusCode := 200;
           contentType := Some (str "text/plain");
           responseBody := output |}
    | None => invalid_input
    end.
Proof.
  intros Hm Hp. unfold onRequest.
  by rewrite !bool_decide_eq_true_2 by done.
Qed.

Lemma diff_output_parsed (E : engine)
    (JSON_parse : jsstring → option value)
    (JSON_stringify String_of : value → option jsstring)
    (JSON_stringify_diff : list DiffEntry → option jsstring)
    (req : http_request) :
  diff_output E JSON_parse JSON_stringify String_of JSON_stringify_diff req
  = match JSON_parse (concat (chunks req)) with
    | None | Some VNull => None
    | Some parsed =>
        generateDiff E (get E (Some parsed) (str "old"))
                     (get E (Some parsed) (str "new")) []
        ≫= λ diff,
          formatDiff JSON_stringify String_of JSON_stringify_diff diff
            (or_string (qvalue_toString <$> http_query req !! str "type")
                       (str "json"))
    end.
Proof. unfold diff_output. by rewrite body_concat, app_nil_l. Qed.

(** X21.  The routes: [POST /diff] is answered 200 or 400 and nothing else
    is; every other request for [/ws] is answered 426, whatever its
    method; every other request is answered 404. *)
Theorem onRequest_routes (E : engine)
    (JSON_parse : jsstring → option value)
    (JSON_stringify String_of : value → option jsstring)
    (JSON_stringify_diff : list DiffEntry → option jsstring)
    (req : http_request) :
  let res := onRequest E JSON_parse JSON_stringify String_of
               JSON_stringify_diff req in
  let is_diff := method req = str "POST"
                 ∧ http_pathname req = Some (str "/diff") in
  (statusCode res = 200 ∨ statusCode res = 400 ↔ is_diff)
  ∧ (statusCode res = 426 ↔ http_pathname req = Some (str "/ws"))
  ∧ (statusCode res = 404
     ↔ ¬ is_diff ∧ http_pathname req ≠ Some (str "/ws")).
Proof.
  cbn zeta. unfold onRequest, invalid_input.
  destruct (decide (method req = str "POST")) as [Hm|Hm];
    destruct (decide (http_pathname req = Some (str "/diff"))) as [Hp|Hp];
    destruct (decide (http_pathname req = Some (str "/ws"))) as [Hw|Hw];
    try (rewrite Hp in Hw; by vm_compute in Hw);
    rewrite ?(bool_decide_eq_true_2 _ Hm), ?(bool_decide_eq_false_2 _ Hm),
            ?(bool_decide_eq_true_2 _ Hp), ?(bool_decide_eq_false_2 _ Hp),
            ?(bool_decide_eq_true_2 _ Hw), ?(bool_decide_eq_false_2 _ Hw);
    cbn [andb statusCode].
  all: try (destruct (diff_output _ _ _ _ _ _); cbn [statusCode]).
  all: (split; [|split]); split; intros; try discriminate; try tauto.
  all: try (destruct H as [? ?]; done).
  all: try (destruct H as [H|H]; discriminate).
Qed.

Lemma onRequest_routes_witness :
  statusCode (onRequest node (λ _, None) (λ _, None) (λ _, None)
                (λ _, None)
                {| method := str "POST"; http_pathname := Some (str "/ws");
                   http_query := ∅; chunks := [] |})
  = 426.
Proof.
  apply (onRequest_routes node (λ _, None) (λ _, None) (λ _, None)
           (λ _, None)
           {| method := str "POST"; http_pathname := Some (str "/ws");
              http_query := ∅; chunks := [] |}).
  reflexivity.
Defined.

(** When a renderer throws: [git] on an entry whose value [JSON.stringify]
    throws on, [plain] on an entry whose value has no string conversion,
    the default on a diff [JSON.stringify] throws on; [compact] and
    [summary] never. *)
Lemma formatDiff_None (JSON_stringify String_of : value → option jsstring)
    (JSON_stringify_diff : list DiffEntry → option jsstring)
    (diff : list DiffEntry) (type : jsstring) :
  formatDiff JSON_stringify String_of JSON_stringify_diff diff type = None
  ↔ (type = str "git"
     ∧ Exists (λ e, git_line JSON_stringify e = None) diff)
    ∨ (type = str "plain"
       ∧ Exists (λ e, plain_line String_of e = None) diff)
    ∨ (type ≠ str "git" ∧ type ≠ str "plain" ∧ type ≠ str "compact"
       ∧ type ≠ str "summary" ∧ JSON_stringify_diff diff = None).
Proof.
  unfold formatDiff.
  destruct (decide (type = str "git")) as [->|Hg].
  { rewrite bool_decide_eq_true_2 by done. rewrite fmap_None, mapM_None.
    split; [by left|].
    intros [[_ H]|[[H _]|[H _]]]; [done|by vm_compute in H|done]. }
  rewrite (bool_decide_eq_false_2 _ Hg).
  destruct (decide (type = str "plain")) as [->|Hp].
  { rewrite bool_decide_eq_true_2 by done. rewrite fmap_None, mapM_None.
    split; [by right; left|].
    intros [[H _]|[[_ H]|(_ & H & _)]]; done. }
  rewrite (bool_decide_eq_false_2 _ Hp).
  destruct (decide (type = str "compact")) as [->|Hc].
  { rewrite bool_decide_eq_true_2 by done.
    split; [done|]. intros [[H _]|[[H _]|(_ & _ & H & _)]]; done. }
  rewrite (bool_decide_eq_false_2 _ Hc).
  destruct (decide (type = str "summary")) as [->|Hs].
  { rewrite bool_decide_eq_true_2 by done.
    split; [done|]. intros [[H _]|[[H _]|(_ & _ & _ & H & _)]]; done. }
  rewrite (bool_decide_eq_false_2 _ Hs).
  split; [by right; right|].
  intros [[H _]|[[H _]|(_ & _ & _ & _ & H)]]; done.
Qed.

(** X22.  [POST /diff] reads the body as the concatenation of its chunks
    and answers 400, with the JSON error body, exactly when the [try]
    block throws: the text is not JSON, or is the JSON [null], or
    [generateDiff] exhausts the call stack, or the renderer throws, which
    only [git], [plain] and the default JSON renderer can.  In every other
    case (an object, but also a number, a string or an array) the answer
    is 200, as plain text, with the rendering of the diff of the
    properties [old] and [new]. *)
Theorem onRequest_diff_status (E : engine)
    (JSON_parse : jsstring → option value)
    (JSON_stringify String_of : value → option jsstring)
    (JSON_stringify_diff : list DiffEntry → option jsstring)
    (req : http_request) :
  method req = str "POST" → http_pathname req = Some (str "/diff") →
  let res := onRequest E JSON_parse JSON_stringify String_of
               JSON_stringify_diff req in
  let parsed := JSON_parse (concat (chunks req)) in
  let type := or_string (qvalue_toString <$> http_query req !! str "type")
                        (str "json") in
  let diff := parsed ≫= λ p, generateDiff E (get E (Some p) (str "old"))
                                          (get E (Some p) (str "new")) [] in
  let render := formatDiff JSON_stringify String_of JSON_stringify_diff in
  (parsed = None ∨ parsed = Some VNull ∨ diff = None
   ∨ (∃ d, diff = Some d ∧ render d type = None) →
   res = {| statusCode := 400;
            contentType := Some (str "application/json");
            responseBody := invalid_input_body |})
  ∧ (statusCode res = 400 →
     parsed = None ∨ parsed = Some VNull ∨ diff = None
     ∨ (∃ d, diff = Some d ∧ render d type = None))
  ∧ (∀ d output,
       parsed ≠ None → parsed ≠ Some VNull → diff = Some d →
       render d type = Some output →
       res = {| statusCode := 200;
                contentType := Some (str "text/plain");
                responseBody := output |})
  ∧ (∀ d, render d type = None →
       (type = str "git"
        ∧ Exists (λ e, git_line JSON_stringify e = None) d)
       ∨ (type = str "plain"
          ∧ Exists (λ e, plain_line String_of e = None) d)
       ∨ (type ≠ str "git" ∧ type ≠ str "plain" ∧ type ≠ str "compact"
          ∧ type ≠ str "summary" ∧ JSON_stringify_diff d = None)).
Proof.
  intros Hm Hp. cbn zeta.
  rewrite (onRequest_diff E _ _ _ _ req Hm Hp), diff_output_parsed.
  split; [|split; [|split]].
  - intros [Hn | [Hn | [Hd | (d & Hd & Hr)]]].
    + by rewrite Hn.
    + by rewrite Hn.
    + destruct (JSON_parse _) as [parsed|]; [|done].
      cbn [mbind option_bind] in Hd. rewrite Hd. by destruct parsed.
    + destruct (JSON_parse _) as [parsed|]; [|done].
      cbn [mbind option_bind] in Hd. rewrite Hd.
      cbn [mbind option_bind]. rewrite Hr. by destruct parsed.
  - destruct (JSON_parse _) as [parsed|]; [|by left].
    cbn [mbind option_bind].
    destruct (generateDiff E _ _ _) as [d|]; [|by right; right; left].
    cbn [mbind option_bind].
    destruct (formatDiff _ _ _ d _) as [output|] eqn:Hr;
      [|by right; right; right; exists d].
    destruct parsed; first [by right; left | by intros Hst; vm_compute in Hst].
  - intros d output Hn Hnull Hd Hr.
    destruct (JSON_parse _) as [parsed|]; [|done].
    cbn [mbind option_bind] in Hd. rewrite Hd.
    cbn [mbind option_bind]. rewrite Hr. destruct parsed; try done.
  - intros d. apply formatDiff_None.
Qed.

Lemma onRequest_diff_status_witness :
  let doc := VObject [(str "old", VObject []);
                      (str "new",
                       VObject [(str "a",
                                 VObject [(str "toString",
                                           number_of_nat 0)])])] in
  let req := {| method := str "POST"; http_pathname := Some (str "/diff");
                http_query := {[ str "type" := QString (str "plain") ]};
                chunks := [str "bo"; str "dy"] |} in
  let req' := {| method := str "POST"; http_pathname := Some (str "/diff");
                 http_query := {[ str "type" := QString (str "compact") ]};
                 chunks := [str "bo"; str "dy"] |} in
  statusCode (onRequest node (λ _, Some doc) (λ _, None) sample_String_of
                (λ _, None) req) = 400
  ∧ onRequest node (λ _, Some doc) (λ _, None) sample_String_of
      (λ _, None) req'
    = {| statusCode := 200; contentType := Some (str "text/plain");
         responseBody := str "+a" |}.
Proof.
  intros doc req req'. split.
  - destruct (onRequest_diff_status node (λ _, Some doc) (λ _, None)
                sample_String_of (λ _, None) req) as [Hbad _];
      [reflexivity..|].
    rewrite Hbad; [reflexivity|]. right. right. right.
    exists [added (str "a") (VObject [(str "toString", number_of_nat 0)])].
    split; by vm_compute.
  - destruct (onRequest_diff_status node (λ _, Some doc) (λ _, None)
                sample_String_of (λ _, None) req') as (_ & _ & Hok & _);
      [reflexivity..|].
    apply (Hok [added (str "a")
                  (VObject [(str "toString", number_of_nat 0)])]);
      [discriminate | discriminate | by vm_compute | by vm_compute].
Defined.

Lemma formatDiff_nil (JSON_stringify String_of : value → option jsstring)
    (JSON_stringify_diff : list DiffEntry → option jsstring)
    (type : jsstring) :
  (type = str "git" ∨ type = str "plain" ∨ type = str "compact" →
   formatDiff JSON_stringify String_of JSON_stringify_diff [] type
   = Some [])
  ∧ (type = str "summary" →
     formatDiff JSON_stringify String_of JSON_stringify_diff [] type
     = Some (str "Added: 0, Removed: 0, Changed: 0")).
Proof.
  split.
  - intros [-> | [-> | ->]]; by vm_compute.
  - intros ->. by vm_compute.
Qed.

(** X23.  Diffing a document against itself over HTTP: when the body holds
    the same JSON-like value under [old] and under [new], nested no deeper
    than the call stack holds calls of [generateDiff] (or holds neither),
    the answer is 200 with an empty body for the [git], [plain] and
    [compact] formats, and ["Added: 0, Removed: 0, Changed: 0"] for
    [summary]. *)
Theorem onRequest_diff_unchanged (E : engine)
    (JSON_parse : jsstring → option value)
    (JSON_stringify String_of : value → option jsstring)
    (JSON_stringify_diff : list DiffEntry → option jsstring)
    (req : http_request) (parsed : value) (type : jsstring) :
  method req = str "POST" → http_pathname req = Some (str "/diff") →
  JSON_parse (concat (chunks req)) = Some parsed → parsed ≠ VNull →
  get E (Some parsed) (str "old") = get E (Some parsed) (str "new") →
  (∀ a, get E (Some parsed) (str "old") = Some a →
        json_like a = true ∧ (depth a ≤ S (stack E))%nat) →
  http_query req !! str "type" = Some (QString type) →
  let res := onRequest E JSON_parse JSON_stringify String_of
               JSON_stringify_diff req in
  (type = str "git" ∨ type = str "plain" ∨ type = str "compact" →
   statusCode res = 200 ∧ responseBody res = [])
  ∧ (type = str "summary" →
     statusCode res = 200
     ∧ responseBody res = str "Added: 0, Removed: 0, Changed: 0").
Proof.
  intros Hm Hp Hparse Hnull Hsame Hjson Htype. cbn zeta.
  rewrite (onRequest_diff E _ _ _ _ req Hm Hp), diff_output_parsed, Hparse.
  assert (generateDiff E (get E (Some parsed) (str "old"))
                       (get E (Some parsed) (str "new")) [] = Some [])
    as Hd.
  { rewrite <- Hsame.
    destruct (get E (Some parsed) (str "old")) as [a|] eqn:Hold; [|done].
    destruct (Hjson a eq_refl) as [Hj Hdepth].
    apply generateDiff_fuel_same; [lia|done..]. }
  rewrite Hd, Htype.
  cbn [mbind option_bind fmap option_fmap option_map qvalue_toString].
  destruct (formatDiff_nil JSON_stringify String_of JSON_stringify_diff type)
    as [H1 H2].
  split.
  - intros Ht.
    assert (or_string (Some type) (str "json") = type) as ->
      by (unfold or_string; by destruct Ht as [-> | [-> | ->]]).
    rewrite (H1 Ht). by destruct parsed.
  - intros ->.
    assert (or_string (Some (str "summary")) (str "json") = str "summary")
      as -> by done.
    rewrite (H2 eq_refl). by destruct parsed.
Qed.

Lemma onRequest_diff_unchanged_witness :
  let doc := VObject [(str "old", sample_value); (str "new", sample_value)] in
  let req := {| method := str "POST"; http_pathname := Some (str "/diff");
                http_query := {[ str "type" := QString (str "summary") ]};
                chunks := [] |} in
  responseBody (onRequest node (λ _, Some doc) (λ _, None) (λ _, None)
                  (λ _, None) req)
  = str "Added: 0, Removed: 0, Changed: 0".
Proof.
  intros doc req.
  destruct (onRequest_diff_unchanged node (λ _, Some doc) (λ _, None)
              (λ _, None) (λ _, None) req doc (str "summary"))
    as [_ Hsum];
    [reflexivity | reflexivity | reflexivity | discriminate | reflexivity
    | intros a [= <-]; split; [reflexivity | cbn; lia] | reflexivity
    | by apply Hsum].
Defined.

(** X24.  The format defaults to JSON: when the [type] parameter is
    missing or empty, or is any string other than [git], [plain],
    [compact] and [summary] (the match is exact and case-sensitive), a
    200 answer of [POST /diff] is the JSON rendering of the diff of the
    properties [old] and [new] of the parsed body. *)
Theorem onRequest_diff_default_format (E : engine)
    (JSON_parse : jsstring → option value)
    (JSON_stringify String_of : value → option jsstring)
    (JSON_stringify_diff : list DiffEntry → option jsstring)
    (req : http_request) :
  method req = str "POST" → http_pathname req = Some (str "/diff") →
  let type := qvalue_toString <$> http_query req !! str "type" in
  truthy_opt type = false
  ∨ (∃ t, type = Some t ∧ t ≠ str "git" ∧ t ≠ str "plain"
          ∧ t ≠ str "compact" ∧ t ≠ str "summary") →
  let res := onRequest E JSON_parse JSON_stringify String_of
               JSON_stringify_diff req in
  statusCode res = 200 →
  ∃ parsed d,
    JSON_parse (concat (chunks req)) = Some parsed
    ∧ generateDiff E (get E (Some parsed) (str "old"))
                   (get E (Some parsed) (str "new")) [] = Some d
    ∧ JSON_stringify_diff d = Some (responseBody res).
Proof.
  intros Hm Hp. cbn zeta. intros Htype.
  rewrite (onRequest_diff E _ _ _ _ req Hm Hp), diff_output_parsed.
  assert (∀ d t, t ≠ str "git" → t ≠ str "plain" → t ≠ str "compact" →
                 t ≠ str "summary" →
                 formatDiff JSON_stringify String_of JSON_stringify_diff d t
                 = JSON_stringify_diff d) as Hdefault.
  { intros d t H1 H2 H3 H4. unfold formatDiff.
    by rewrite !bool_decide_eq_false_2 by done. }
  assert (∀ d,
    formatDiff JSON_stringify String_of JSON_stringify_diff d
      (or_string (qvalue_toString <$> http_query req !! str "type")
                 (str "json"))
    = JSON_stringify_diff d) as Hfmt.
  { intros d. destruct Htype as [Hfalsy | (t & Ht & H1 & H2 & H3 & H4)].
    - assert (or_string (qvalue_toString <$> http_query req !! str "type")
                        (str "json") = str "json") as ->.
      { unfold or_string.
        destruct (qvalue_toString <$> _) as [t|]; [|done].
        cbn in Hfalsy. by rewrite Hfalsy. }
      apply Hdefault; discriminate.
    - rewrite Ht. unfold or_string.
      destruct (truthy t) eqn:Htr; [by apply Hdefault|].
      apply Hdefault; discriminate. }
  destruct (JSON_parse _) as [parsed|]; [|discriminate].
  destruct (generateDiff E _ _ _) as [d|] eqn:Hd;
    [|by destruct parsed].
  cbn [mbind option_bind]. rewrite Hfmt.
  destruct (JSON_stringify_diff d) as [out|] eqn:Hout;
    [|by destruct parsed].
  intros Hst. exists parsed, d. split; [done|]. split; [done|].
  destruct parsed; first [done | by vm_compute in Hst].
Qed.

Lemma onRequest_diff_default_format_witness :
  let req := {| method := str "POST"; http_pathname := Some (str "/diff");
                http_query := {[ str "type" := QString (str "Summary") ]};
                chunks := [] |} in
  ∃ parsed d,
    Some (VBool true) = Some parsed
    ∧ generateDiff node (get node (Some parsed) (str "old"))
                   (get node (Some parsed) (str "new")) [] = Some d
    ∧ Some (str "json")
      = Some (responseBody
                (onRequest node (λ _, Some (VBool true)) (λ _, None)
                   (λ _, None) (λ _, Some (str "json")) req)).
Proof.
  intros req.
  apply (onRequest_diff_default_format node (λ _, Some (VBool true))
           (λ _, None) (λ _, None) (λ _, Some (str "json")) req);
    [reflexivity | reflexivity | | reflexivity].
  right. exists (str "Summary").
  split; [reflexivity|]. repeat split; discriminate.
Defined.

Lemma lines_from_no_newline (cur l : jsstring) :
  10 ∉ l → lines_from cur l = [cur ++ l].
Proof.
  revert cur. induction l as [|c l IH]; intros cur Hl; cbn.
  - by rewrite app_nil_r.
  - apply not_elem_of_cons in Hl as [Hc Hl].
    destruct (N.eqb_spec c 10); [congruence|].
    rewrite IH by done. by rewrite <- app_assoc.
Qed.

Lemma lines_from_newline (cur l rest : jsstring) :
  10 ∉ l → lines_from cur (l ++ 10 :: rest) = (cur ++ l) :: lines_from [] rest.
Proof.
  revert cur. induction l as [|c l IH]; intros cur Hl; cbn.
  - by rewrite app_nil_r.
  - apply not_elem_of_cons in Hl as [Hc Hl].
    destruct (N.eqb_spec c 10); [congruence|].
    rewrite IH by done. by rewrite <- app_assoc.
Qed.

Lemma lines_from_join (ls : list jsstring) :
  ls ≠ [] → Forall (λ l, 10 ∉ l) ls → lines_from [] (join [10] ls) = ls.
Proof.
  induction ls as [|x ls IH]; [done|]. intros _ [Hx Hls]%Forall_cons.
  destruct ls as [|y ls].
  - cbn [join]. by rewrite lines_from_no_newline.
  - cbn [join]. cbn [app]. rewrite lines_from_newline by done.
    cbn [app]. f_equal. by apply IH.
Qed.

(** X25.  The compact rendering can be read back: when no path contains a
    line break, splitting the output at line breaks and reading the first
    character of each line ([+], [-] or [~]) gives back the kind and the
    path of every entry, in order. *)
Theorem formatDiff_compact_read_back
    (JSON_stringify String_of : value → option jsstring)
    (JSON_stringify_diff : list DiffEntry → option jsstring)
    (diff : list DiffEntry) :
  Forall (λ e, 10 ∉ entry_path e) diff →
  read_compact <$> formatDiff JSON_stringify String_of JSON_stringify_diff
                     diff (str "compact")
  = Some (map (λ e, (entry_kind e, entry_path e)) diff).
Proof.
  intros Hdiff. unfold formatDiff.
  replace (bool_decide (str "compact" = str "git")) with false
    by (by vm_compute).
  replace (bool_decide (str "compact" = str "plain")) with false
    by (by vm_compute).
  replace (bool_decide (str "compact" = str "compact")) with true
    by (by vm_compute).
  cbn [fmap option_fmap option_map]. f_equal.
  destruct diff as [|e diff]; [done|].
  assert (Forall (λ l, 10 ∉ l) (map compact_line (e :: diff))) as Hlines.
  { apply Forall_fmap. eapply Forall_impl; [exact Hdiff|].
    intros [p v|p v|p v1 v2] Hp; cbn in Hp |- *;
      (apply not_elem_of_cons; split; [discriminate|done]). }
  assert (read_compact (join [10] (map compact_line (e :: diff)))
          = omap read_compact_line
              (lines_from [] (join [10] (map compact_line (e :: diff)))))
    as ->.
  { cbn [map]. destruct e; destruct (map compact_line diff); done. }
  rewrite lines_from_join by done.
  clear. induction (e :: diff) as [|x l IH]; [done|].
  destruct x; cbn; f_equal; exact IH.
Qed.

Lemma formatDiff_compact_read_back_witness :
  read_compact <$> formatDiff (λ _, None) (λ _, None) (λ _, None)
                     [added (str "a.b") VNull; changed (str "c") VNull VNull;
                      removed [] VNull] (str "compact")
  = Some [(KAdded, str "a.b"); (KChanged, str "c"); (KRemoved, [])].
Proof.
  apply (formatDiff_compact_read_back (λ _, None) (λ _, None) (λ _, None)
           [added (str "a.b") VNull; changed (str "c") VNull VNull;
            removed [] VNull]).
  repeat (apply Forall_cons; split;
    [cbn; intros H;
     repeat (apply elem_of_cons in H as [H|H]; [discriminate|]);
     by apply elem_of_nil in H|]).
  apply Forall_nil_2.
Defined.

Lemma find_first {A : Type} (f : A → bool) (l : list A) (x : A) :
  find f l = Some x →
  f x = true
  ∧ ∃ l1 l2, l = l1 ++ x :: l2 ∧ ∀ y, In y l1 → f y = false.
Proof.
  induction l as [|y l IH]; [discriminate|]. cbn [find].
  destruct (f y) eqn:Hy.
  - intros [= <-]. split; [done|]. exists [], l. by split.
  - intros [Hx (l1 & l2 & -> & Hl1)]%IH. split; [done|].
    exists (y :: l1), l2. split; [done|].
    intros z [<-|Hz]; [done|by apply Hl1].
Qed.

(** X26.  The rate-limit key, exactly.  It is never empty.  When one of
    the nine headers of [ipHeaders] is set to a non-empty string, the key
    is the NAME of the first such header in the order of the list (a name,
    whatever the header holds): that header is set, and none of the names
    before it is.  When none is set, the key is the peer address if there
    is a non-empty one, and ["unknown"] otherwise. *)
Theorem upgrade_ip_range (req : request) :
  let set := λ h, truthy_opt (headers req !! h) in
  upgrade_ip req ≠ []
  ∧ (∀ h, In h ipHeaders → set h = true →
       set (upgrade_ip req) = true
       ∧ ∃ before after,
           ipHeaders = before ++ upgrade_ip req :: after
           ∧ ∀ h', In h' before → set h' = false)
  ∧ ((∀ h, In h ipHeaders → set h = false) →
     (∀ a, remoteAddress req = Some a → a ≠ [] → upgrade_ip req = a)
     ∧ (remoteAddress req = None ∨ remoteAddress req = Some [] →
        upgrade_ip req = str "unknown")).
Proof.
  cbn zeta.
  destruct (find (λ header, truthy_opt (headers req !! header)) ipHeaders)
    as [h|] eqn:Hf.
  - destruct (upgrade_ip_header req h Hf) as [-> Hin].
    destruct (find_first _ _ _ Hf) as (Hset & before & after & Hl & Hb).
    split; [|split].
    + apply truthy_nonempty. by apply ipHeaders_truthy.
    + intros _ _ _. split; [done|]. by exists before, after.
    + intros Hnone. rewrite (Hnone h Hin) in Hset. discriminate.
  - rewrite (upgrade_ip_fallback req Hf). unfold or_string.
    split; [|split].
    + destruct (remoteAddress req) as [s|]; [|discriminate].
      destruct (truthy s) eqn:Hs; [by apply truthy_nonempty|discriminate].
    + intros h Hin Ht.
      pose proof (find_none _ _ Hf h Hin) as Hnone. cbn in Hnone. congruence.
    + intros _. split.
      * intros a -> Ha. by rewrite (proj2 (truthy_nonempty a) Ha).
      * by intros [-> | ->].
Qed.

Lemma upgrade_ip_range_witness :
  truthy_opt (headers sample_request !! upgrade_ip sample_request) = true
  ∧ (∃ before after,
       ipHeaders = before ++ upgrade_ip sample_request :: after
       ∧ ∀ h', In h' before
               → truthy_opt (headers sample_request !! h') = false)
  ∧ upgrade_ip short_token_request = str "10.0.0.1".
Proof.
  destruct (upgrade_ip_range sample_request) as (_ & Hfirst & _).
  destruct (upgrade_ip_range short_token_request) as (_ & _ & Hpeer).
  split; [|split].
  - apply (Hfirst (str "x-real-ip")); [right; left; reflexivity|].
    by vm_compute.
  - apply (Hfirst (str "x-real-ip")); [right; left; reflexivity|].
    by vm_compute.
  - apply Hpeer; [|reflexivity|discriminate].
    intros h Hin. by vm_compute.
Defined.
